(** * ngx-cookie: the cookie service (cookie.service.ts)

    A shallow embedding of [CookieService] and of the pieces of the
    JavaScript platform it calls, followed by the properties of the reader
    ([_readCookies]) and of the writer ([_buildCookieString]).

    Conventions.
    - A JavaScript string is the list of its UTF-16 code units, each a [Z].
    - A completion is either [Normal v] or [Throw e], as in ECMAScript.
    - An object is the list of its own properties, in the order of their
      creation, and is read through its prototype, [Object.prototype];
      objects live in a heap of locations, so that "the same instance" means
      "the same location".
    - The host's cookie jar is a parameter: a type of jars with the getter
      and the setter of [document.cookie]. *)

From Stdlib Require Import ZArith Lia String Ascii DecimalString.
From stdpp Require Import base option list sets sorting.

Local Open Scope Z_scope.

(** ** JavaScript strings *)

Module JS.

Abbreviation jsstring := (list Z).

(** The code units of an ASCII literal. *)
Definition js (s : string) : jsstring :=
  map (fun a => Z.of_N (N_of_ascii a)) (list_ascii_of_string s).

Inductive JsError := URIError | SyntaxError.

Inductive Completion (A : Type) :=
  | Normal (a : A)
  | Throw (e : JsError).
Arguments Normal {A} a.
Arguments Throw {A} e.

#[global] Instance JsError_eq_dec : EqDecision JsError.
Proof. solve_decision. Defined.

#[global] Instance Completion_eq_dec {A} `{EqDecision A} : EqDecision (Completion A).
Proof. solve_decision. Defined.

Definition cbind {A B} (c : Completion A) (k : A -> Completion B) : Completion B :=
  match c with
  | Normal a => k a
  | Throw e => Throw e
  end.

Definition cmap {A B} (f : A -> B) (c : Completion A) : Completion B :=
  cbind c (fun a => Normal (f a)).

(** [s.indexOf(c)] for a one character needle: the first position, or -1. *)
Fixpoint indexOf (c : Z) (s : jsstring) : Z :=
  match s with
  | [] => -1
  | x :: t => if x =? c then 0
              else let i := indexOf c t in if i <? 0 then -1 else i + 1
  end.

(** [s.substring(a, b)] and [s.substring(a)] for 0 <= a <= b. *)
Definition substring (a b : Z) (s : jsstring) : jsstring :=
  take (Z.to_nat (b - a)) (drop (Z.to_nat a) s).

Definition substring_from (a : Z) (s : jsstring) : jsstring :=
  drop (Z.to_nat a) s.

Fixpoint startsWith (p s : jsstring) : bool :=
  match p, s with
  | [], _ => true
  | _ :: _, [] => false
  | a :: p', b :: s' => (a =? b) && startsWith p' s'
  end.

Definition push_front (c : Z) (segs : list jsstring) : list jsstring :=
  match segs with
  | [] => [[c]]
  | seg :: rest => (c :: seg) :: rest
  end.

(** [s.split(sep)] for a non-empty separator, scanning left to right.
    [skip] counts the code units of a separator just matched that are still
    to be passed over. *)
Fixpoint split_from (sep : jsstring) (skip : nat) (s : jsstring) : list jsstring :=
  match s with
  | [] => [[]]
  | c :: t =>
      match skip with
      | S k => split_from sep k t
      | O => if startsWith sep s
             then [] :: split_from sep (length sep - 1) t
             else push_front c (split_from sep 0 t)
      end
  end.

Definition split (sep s : jsstring) : list jsstring := split_from sep 0 s.

(** [segs.join(sep)] *)
Fixpoint join (sep : jsstring) (segs : list jsstring) : jsstring :=
  match segs with
  | [] => []
  | [seg] => seg
  | seg :: rest => seg ++ sep ++ join sep rest
  end.

(** *** Code units and code points *)

Definition is_code_unit (c : Z) : bool := (0 <=? c) && (c <? 65536).
Definition is_lead (c : Z) : bool := (55296 <=? c) && (c <? 56320).   (* D800..DBFF *)
Definition is_trail (c : Z) : bool := (56320 <=? c) && (c <? 57344).  (* DC00..DFFF *)

(** [String.prototype.isWellFormed]: every code unit is in range and no
    surrogate is unpaired. *)
Fixpoint isWellFormed (s : jsstring) : bool :=
  match s with
  | [] => true
  | c :: t =>
      if is_lead c then
        match t with
        | d :: t' => is_trail d && isWellFormed t'
        | [] => false
        end
      else is_code_unit c && negb (is_trail c) && isWellFormed t
  end.

(** A Unicode scalar value: a code point that is not a surrogate. *)
Definition is_scalar (cp : Z) : Prop :=
  0 <= cp < 1114112 /\ ~ (55296 <= cp < 57344).

Definition UTF16SurrogatePairToCodePoint (lead trail : Z) : Z :=
  (lead - 55296) * 1024 + (trail - 56320) + 65536.

Definition UTF16EncodeCodePoint (cp : Z) : jsstring :=
  if cp <? 65536 then [cp]
  else [(cp - 65536) / 1024 + 55296; (cp - 65536) mod 1024 + 56320].

(** *** UTF-8 *)

Definition utf8_encode (cp : Z) : list Z :=
  if cp <? 128 then [cp]
  else if cp <? 2048 then [192 + cp / 64; 128 + cp mod 64]
  else if cp <? 65536 then
    [224 + cp / 4096; 128 + (cp / 64) mod 64; 128 + cp mod 64]
  else
    [240 + cp / 262144; 128 + (cp / 4096) mod 64; 128 + (cp / 64) mod 64;
     128 + cp mod 64].

Definition is_continuation (b : Z) : bool := (128 <=? b) && (b <? 192).

(** The code point a sequence of octets encodes, when the sequence is a
    valid UTF-8 encoding: shortest form, no surrogate, at most 10FFFF. *)
Definition utf8_decode (octets : list Z) : option Z :=
  match octets with
  | [b0; b1] =>
      let cp := (b0 - 192) * 64 + (b1 - 128) in
      if is_continuation b1 && (128 <=? cp) then Some cp else None
  | [b0; b1; b2] =>
      let cp := (b0 - 224) * 4096 + (b1 - 128) * 64 + (b2 - 128) in
      if is_continuation b1 && is_continuation b2 && (2048 <=? cp)
         && negb ((55296 <=? cp) && (cp <? 57344))
      then Some cp else None
  | [b0; b1; b2; b3] =>
      let cp := (b0 - 240) * 262144 + (b1 - 128) * 4096 + (b2 - 128) * 64
                + (b3 - 128) in
      if is_continuation b1 && is_continuation b2 && is_continuation b3
         && (65536 <=? cp) && (cp <? 1114112)
      then Some cp else None
  | _ => None
  end.

(** The number of leading 1 bits of an octet, as far as Decode looks. *)
Definition leading_ones (b : Z) : nat :=
  if b <? 128 then 0%nat
  else if b <? 192 then 1%nat
  else if b <? 224 then 2%nat
  else if b <? 240 then 3%nat
  else if b <? 248 then 4%nat
  else 5%nat.

(** *** Hexadecimal escapes *)

Definition percent : Z := 37.

Definition hex_digit (d : Z) : Z := if d <? 10 then 48 + d else 55 + d.

Definition hex_value (c : Z) : option Z :=
  if (48 <=? c) && (c <=? 57) then Some (c - 48)
  else if (65 <=? c) && (c <=? 70) then Some (c - 55)
  else if (97 <=? c) && (c <=? 102) then Some (c - 87)
  else None.

Definition escape_octet (b : Z) : jsstring :=
  [percent; hex_digit (b / 16); hex_digit (b mod 16)].

Definition escape_octets (bs : list Z) : jsstring :=
  concat (map escape_octet bs).

(** Reads one "%XY" at the head of [s]: the octet and what follows. *)
Definition read_escape (s : jsstring) : option (Z * jsstring) :=
  match s with
  | p :: h :: l :: rest =>
      if p =? percent then
        match hex_value h, hex_value l with
        | Some x, Some y => Some (16 * x + y, rest)
        | _, _ => None
        end
      else None
  | _ => None
  end.

(** Reads [n] escapes in a row. *)
Fixpoint read_escapes (n : nat) (s : jsstring) : option (list Z * jsstring) :=
  match n with
  | O => Some ([], s)
  | S n' =>
      match read_escape s with
      | Some (b, rest) =>
          match read_escapes n' rest with
          | Some (bs, rest') => Some (b :: bs, rest')
          | None => None
          end
      | None => None
      end
  end.

(** *** encodeURIComponent *)

Definition is_alnum (c : Z) : bool :=
  ((48 <=? c) && (c <=? 57)) || ((65 <=? c) && (c <=? 90))
  || ((97 <=? c) && (c <=? 122)).

(** The marks that stay as they are: - _ . ! ~ * ' ( ) *)
Definition is_mark (c : Z) : bool :=
  (c =? 45) || (c =? 95) || (c =? 46) || (c =? 33) || (c =? 126)
  || (c =? 42) || (c =? 39) || (c =? 40) || (c =? 41).

Definition unreserved (c : Z) : bool := is_alnum c || is_mark c.

Fixpoint encodeURIComponent (s : jsstring) : Completion jsstring :=
  match s with
  | [] => Normal []
  | c :: t =>
      if unreserved c then cmap (cons c) (encodeURIComponent t)
      else if is_lead c then
        match t with
        | d :: t' =>
            if is_trail d then
              cmap (app (escape_octets
                           (utf8_encode (UTF16SurrogatePairToCodePoint c d))))
                   (encodeURIComponent t')
            else Throw URIError
        | [] => Throw URIError
        end
      else if is_trail c then Throw URIError
      else cmap (app (escape_octets (utf8_encode c))) (encodeURIComponent t)
  end.

(** *** decodeURIComponent *)

(** One turn of the loop of Decode: the code units produced and the rest
    of the string, or [None] where Decode throws a URIError. *)
Definition decode_step (s : jsstring) : option (jsstring * jsstring) :=
  match s with
  | [] => None
  | c :: t =>
      if c =? percent then
        match read_escape s with
        | None => None
        | Some (b, rest) =>
            match leading_ones b with
            | 0%nat => Some ([b], rest)
            | 2%nat | 3%nat | 4%nat =>
                match read_escapes (leading_ones b - 1) rest with
                | None => None
                | Some (bs, rest') =>
                    match utf8_decode (b :: bs) with
                    | Some cp => Some (UTF16EncodeCodePoint cp, rest')
                    | None => None
                    end
                end
            | _ => None
            end
        end
      else Some ([c], t)
  end.

(** The loop, with one unit of fuel per turn; a turn consumes at least one
    code unit, so the length of the string is enough fuel. *)
Fixpoint decode_loop (fuel : nat) (s : jsstring) : Completion jsstring :=
  match s with
  | [] => Normal []
  | _ :: _ =>
      match fuel with
      | O => Throw URIError
      | S fuel' =>
          match decode_step s with
          | None => Throw URIError
          | Some (units, rest) => cmap (app units) (decode_loop fuel' rest)
          end
      end
  end.

Definition decodeURIComponent (s : jsstring) : Completion jsstring :=
  decode_loop (length s) s.

(** *** Number to string, for non-negative integers *)

Definition digits_of_nat (n : nat) : jsstring :=
  js (NilZero.string_of_uint (Nat.to_uint n)).

(** *** Plain objects

    An object created by [{}]: its own properties, each a string here, in
    the order of their creation, and [Object.prototype] as its prototype. *)

Abbreviation JsObject := (list (jsstring * jsstring)).

#[global] Instance JsObject_empty : Empty JsObject := [].

(** The property names of [Object.prototype], Annex B of ECMAScript
    included. Each member is a function, but [__proto__], an accessor that
    yields [Object.prototype] itself: none of them is [undefined], [null] or
    a string. Code that adds properties to [Object.prototype] is outside
    the model. *)
Definition Object_prototype : list jsstring :=
  [js "constructor"; js "__defineGetter__"; js "__defineSetter__";
   js "hasOwnProperty"; js "__lookupGetter__"; js "__lookupSetter__";
   js "isPrototypeOf"; js "propertyIsEnumerable"; js "toString";
   js "valueOf"; js "__proto__"; js "toLocaleString"].

(** What reading a property of such an object yields: [undefined], the
    string of an own property, or the member of [Object.prototype] of that
    name. *)
Inductive Property :=
  | Undefined
  | OwnString (s : jsstring)
  | Inherited (name : jsstring).

#[global] Instance Property_eq_dec : EqDecision Property.
Proof. solve_decision. Defined.

Fixpoint own_property (o : JsObject) (key : jsstring) : option jsstring :=
  match o with
  | [] => None
  | (k, v) :: rest => if decide (k = key) then Some v else own_property rest key
  end.

(** [o[key]]: the own property, or else what the prototype has. *)
Definition obj_get (o : JsObject) (key : jsstring) : Property :=
  match own_property o key with
  | Some v => OwnString v
  | None => if bool_decide (key ∈ Object_prototype) then Inherited key else Undefined
  end.

(** [o[key] = v] for a string [v]: an own property is overwritten where it
    stands; the setter of [__proto__] ignores a string; any other name
    becomes a new own property, the last one. *)
Definition obj_set (o : JsObject) (key v : jsstring) : JsObject :=
  match own_property o key with
  | Some _ => map (fun e => if decide (e.1 = key) then (key, v) else e) o
  | None => if decide (key = js "__proto__") then o else o ++ [(key, v)]
  end.

(** An array index: the canonical decimal text of an integer below
    2^32 - 1. *)
Definition digit (c : Z) : option Z :=
  if (48 <=? c) && (c <=? 57) then Some (c - 48) else None.

Fixpoint decimal_value (acc : Z) (s : jsstring) : option Z :=
  match s with
  | [] => Some acc
  | c :: rest =>
      match digit c with
      | Some d => decimal_value (10 * acc + d) rest
      | None => None
      end
  end.

Definition array_index (key : jsstring) : option Z :=
  match key with
  | [] => None
  | c :: rest =>
      if (c =? 48) && negb (bool_decide (rest = [])) then None
      else match decimal_value 0 key with
           | Some n => if n <? 4294967295 then Some n else None
           | None => None
           end
  end.

Definition index_le (a b : jsstring) : Prop :=
  default 0 (array_index a) <= default 0 (array_index b).

#[global] Instance index_le_dec a b : Decision (index_le a b).
Proof. unfold index_le. apply _. Defined.

(** [Object.keys(o)]: the array indices in ascending order, then the other
    names in the order of their creation. *)
Definition Object_keys (o : JsObject) : list jsstring :=
  merge_sort index_le (filter (fun key => is_Some (array_index key)) o.*1)
  ++ filter (fun key => array_index key = None) o.*1.

End JS.

Import JS.

(** ** The platform: [Date] and [JSON]

    [new Date(string)], [Date.prototype.toUTCString] and [JSON.parse] belong
    to the host, and so does the text a member of [Object.prototype] is
    converted to ("function toString() { [native code] }" and the like).
    The service only relies on the epoch string being printed back as it was
    read. *)

Definition epoch_string : jsstring := js "Thu, 01 Jan 1970 00:00:00 GMT".

Class Platform := {
  Date : Type;
  Date_new : jsstring -> Date;
  toUTCString : Date -> jsstring;
  toUTCString_epoch : toUTCString (Date_new epoch_string) = epoch_string;
  JSValue : Type;
  JSON_parse : jsstring -> Completion JSValue;
  member_text : jsstring -> jsstring;
}.

(** ** cookie-options.model.ts *)

Inductive Expires `{Platform} :=
  | ExpiresString (s : jsstring)
  | ExpiresDate (d : Date).

(** Modelled from the spec: the interface [CookieOptions] is declared in
    cookie-options.model.ts. It is "a record of optional serialization
    attributes: path, domain, expiration, secure flag, httpOnly flag,
    sameSite policy, and a raw-storage flag that skips value encoding".
    [None] is a key that is unset. *)
Record CookieOptions `{Platform} := {
  path : option jsstring;
  domain : option jsstring;
  expires : option Expires;
  secure : option bool;
  httpOnly : option bool;
  sameSite : option jsstring;
  storeUnencoded : option bool;
}.

(** Truthiness of an optional string and of an optional boolean. *)
Definition truthy_string (o : option jsstring) : bool :=
  match o with
  | Some (_ :: _) => true
  | _ => false
  end.

Definition truthy_bool (o : option bool) : bool :=
  match o with
  | Some true => true
  | _ => false
  end.

(** ** utils.ts *)

Section Utils.
Context `{Platform}.

(** Modelled from the spec: [isBlank] is imported from utils.ts. The writer
    treats a value as blank "if the value is absent/empty". *)
Definition isBlank (value : option jsstring) : bool :=
  match value with
  | None => true
  | Some [] => true
  | Some (_ :: _) => false
  end.

(** Modelled from the spec: [isPresent] is imported from utils.ts. The
    reader skips a segment "if the name already exists in the map being
    built"; the test is applied to what reading the property yields, and
    only [undefined] is not present. *)
Definition isPresent (x : Property) : bool :=
  match x with
  | Undefined => false
  | OwnString _ | Inherited _ => true
  end.

(** Modelled from the spec: [isString] is imported from utils.ts; it tells
    whether "the resulting expiration is a textual date". *)
Definition isString (e : option Expires) : bool :=
  match e with
  | Some (ExpiresString _) => true
  | _ => false
  end.

(** [new Date(e)]: a string is parsed, a date is copied. *)
Definition new_Date (e : Expires) : Date :=
  match e with
  | ExpiresString s => Date_new s
  | ExpiresDate d => d
  end.

Definition override {A} (new old : option A) : option A :=
  match new with
  | Some x => Some x
  | None => old
  end.

(** Modelled from the spec: [mergeOptions] is imported from utils.ts.
    "Per-call options override defaults key-by-key (shallow merge, call-site
    wins on conflict, unset keys inherit the default)." *)
Definition mergeOptions (oldOptions : CookieOptions)
    (newOptions : option CookieOptions) : CookieOptions :=
  match newOptions with
  | None => oldOptions
  | Some o =>
      {| path := override (path o) (path oldOptions);
         domain := override (domain o) (domain oldOptions);
         expires := override (expires o) (expires oldOptions);
         secure := override (secure o) (secure oldOptions);
         httpOnly := override (httpOnly o) (httpOnly oldOptions);
         sameSite := override (sameSite o) (sameSite oldOptions);
         storeUnencoded := override (storeUnencoded o) (storeUnencoded oldOptions) |}
  end.

(** Modelled from the spec: [safeDecodeURIComponent] is imported from
    utils.ts: "a tolerant decode that returns the original substring on
    failure". *)
Definition safeDecodeURIComponent (str : jsstring) : jsstring :=
  match decodeURIComponent str with
  | Normal r => r
  | Throw _ => str
  end.

(** What [getObject] can return: [undefined], a string, a member of
    [Object.prototype], or a parsed value. *)
Inductive JsAny :=
  | AnyUndefined
  | AnyString (s : jsstring)
  | AnyInherited (name : jsstring)
  | AnyParsed (v : JSValue).

Definition as_any (value : Property) : JsAny :=
  match value with
  | Undefined => AnyUndefined
  | OwnString s => AnyString s
  | Inherited name => AnyInherited name
  end.

(** The string [JSON.parse] converts its argument to. *)
Definition ToString (value : Property) : jsstring :=
  match value with
  | Undefined => js "undefined"
  | OwnString s => s
  | Inherited name => member_text name
  end.

(** The truthiness of what a property read yields. *)
Definition truthy (value : Property) : bool :=
  match value with
  | Undefined => false
  | OwnString [] => false
  | OwnString (_ :: _) => true
  | Inherited _ => true
  end.

(** Modelled from the spec: [safeJsonParse] is imported from utils.ts: "a
    tolerant JSON-like parse, falling back to returning the raw string if
    parsing fails"; what is returned then is the argument as it was. *)
Definition safeJsonParse (value : Property) : Completion JsAny :=
  match JSON_parse (ToString value) with
  | Normal v => Normal (AnyParsed v)
  | Throw _ => Normal (as_any value)
  end.

End Utils.

(** ** The host's cookie jar: [document.cookie]

    Modelled from the spec: the jar is an external collaborator, "a raw
    string-valued resource with get/set semantics": "get returns full jar as
    a single string of name=value pairs separated by [; ]; set
    appends/updates/removes a single cookie definition based on the
    attribute string assigned". Which cookies a host keeps, under which
    paths, and in which order it lists them is the host's affair: a host is
    any type of jars with these two operations, and each property below
    says what it needs of it. *)

Class Host := {
  Jar : Type;
  jar_get : Jar -> jsstring;
  jar_set : jsstring -> Jar -> Jar;
}.

Definition semicolon : Z := 59.
Definition equals_sign : Z := 61.

(** Of an assigned cookie string: the text before the first [;] and the
    attributes after it. *)
Definition cookie_pair (str : jsstring) : jsstring :=
  hd [] (split [semicolon] str).

Definition cookie_attributes (str : jsstring) : list jsstring :=
  tl (split [semicolon] str).

Definition pair_name (pair : jsstring) : jsstring :=
  let i := indexOf equals_sign pair in
  if i <? 0 then [] else substring 0 i pair.

Definition pair_value (pair : jsstring) : jsstring :=
  let i := indexOf equals_sign pair in
  if i <? 0 then pair else substring_from (i + 1) pair.

(** The string asks for a removal: its expiry is the epoch. *)
Definition is_expired (str : jsstring) : bool :=
  bool_decide (js "expires=" ++ epoch_string ∈ cookie_attributes str).

(** ** cookie.service.ts *)

Module CookieService.

(** Objects are allocated in a heap and named by their location. *)
Abbreviation loc := nat.
Abbreviation CookieMap := JsObject.
Abbreviation Heap := (list JsObject).

Section Service.
Context `{Platform} `{Host}.

(** The fields of the service, and the part of the world it acts on: the
    jar, the strings assigned to it so far, and the console. *)
Record State := {
  _lastCookies : loc;
  _lastCookieString : jsstring;
  options : CookieOptions;
  heap : Heap;
  document_cookie : Jar;
  assigned : list jsstring;
  console : list jsstring;
}.

(** [new CookieService(optionsProvider)] in a world with jar [j]: the field
    initialisers allocate the first, empty map. *)
Definition constructor (provided : CookieOptions) (j : Jar) : State :=
  {| _lastCookies := 0%nat;
     _lastCookieString := [];
     options := provided;
     heap := [∅];
     document_cookie := j;
     assigned := [];
     console := [] |}.

(** A method: a state transformer that completes normally or throws. *)
Definition M (A : Type) := State -> Completion A * State.

Definition ret {A} (a : A) : M A := fun st => (Normal a, st).

Definition bind {A B} (m : M A) (k : A -> M B) : M B :=
  fun st =>
    match m st with
    | (Normal a, st') => k a st'
    | (Throw e, st') => (Throw e, st')
    end.

Definition lift {A} (c : Completion A) : M A := fun st => (c, st).

Notation "x <- m ;; k" := (bind m (fun x => k))
  (at level 100, m at next level, right associativity).

(** [arr.forEach(f)]: stops at the first call that throws. *)
Fixpoint forEach {A} (f : A -> M unit) (arr : list A) : M unit :=
  match arr with
  | [] => ret tt
  | a :: rest => u <- f a ;; forEach f rest
  end.

(** The getter and the setter of [cookieString]. *)
Definition get_cookieString (st : State) : jsstring :=
  jar_get (document_cookie st).

Definition set_cookieString (val : jsstring) : M unit := fun st =>
  (Normal tt,
   {| _lastCookies := _lastCookies st;
      _lastCookieString := _lastCookieString st;
      options := options st;
      heap := heap st;
      document_cookie := jar_set val (document_cookie st);
      assigned := assigned st ++ [val];
      console := console st |}).

Definition console_log (msg : jsstring) : M unit := fun st =>
  (Normal tt,
   {| _lastCookies := _lastCookies st;
      _lastCookieString := _lastCookieString st;
      options := options st;
      heap := heap st;
      document_cookie := document_cookie st;
      assigned := assigned st;
      console := console st ++ [msg] |}).

(** The object a reference denotes. *)
Definition deref (h : Heap) (l : loc) : CookieMap := default ∅ (h !! l).

(** *** _readCookies *)

(** The body of the loop over the segments, on the object being filled. *)
Definition read_segment (cookies : CookieMap) (cookie : jsstring) : CookieMap :=
  let index := indexOf equals_sign cookie in
  if index <=? 0 then cookies
  else
    let name := safeDecodeURIComponent (substring 0 index cookie) in
    if isPresent (obj_get cookies name) then cookies
    else obj_set cookies name
           (safeDecodeURIComponent (substring_from (index + 1) cookie)).

(** The same body, acting on the object [this._lastCookies] in the heap. *)
Definition read_segment_at (l : loc) (h : Heap) (cookie : jsstring) : Heap :=
  alter (fun cookies => read_segment cookies cookie) l h.

Definition _readCookies : M loc := fun st =>
  let currentCookieString := get_cookieString st in
  if decide (currentCookieString = _lastCookieString st) then
    (Normal (_lastCookies st), st)
  else
    let fresh := length (heap st) in
    let h := foldl (read_segment_at fresh) (heap st ++ [∅])
                   (split (js "; ") currentCookieString) in
    (Normal fresh,
     {| _lastCookies := fresh;
        _lastCookieString := currentCookieString;
        options := options st;
        heap := h;
        document_cookie := document_cookie st;
        assigned := assigned st;
        console := console st |}).

(** The object a jar string parses to. *)
Definition parse_cookies (s : jsstring) : CookieMap :=
  foldl read_segment ∅ (split (js "; ") s).

(** *** get, getObject, getAll *)

Definition get (key : jsstring) : M Property :=
  l <- _readCookies ;; fun st => (Normal (obj_get (deref (heap st) l) key), st).

Definition getObject (key : jsstring) : M JsAny :=
  value <- get key ;;
  if truthy value then lift (safeJsonParse value) else ret (as_any value).

Definition getAll : M loc := _readCookies.

(** *** _buildCookieString, _writeCookie *)

Definition too_large_message (name : jsstring) (cookieLength : nat) : jsstring :=
  js "Cookie '" ++ name
  ++ js "' possibly not set or overflowed because it was too large ("
  ++ digits_of_nat cookieLength ++ js " > 4096 bytes)!".

Definition _buildCookieString (name : jsstring) (value : option jsstring)
    (options' : option CookieOptions) : M jsstring := fun st =>
  let opts := mergeOptions (options st) options' in
  let expires := expires opts in
  let expires := if isBlank value then Some (ExpiresString epoch_string) else expires in
  let value := if isBlank value then [] else default [] value in
  let expires := if isString expires
                 then option_map (fun e => ExpiresDate (new_Date e)) expires
                 else expires in
  (cookieValue <- lift (if truthy_bool (storeUnencoded opts) then Normal value
                       else encodeURIComponent value) ;;
   encodedName <- lift (encodeURIComponent name) ;;
   let str := encodedName ++ js "=" ++ cookieValue in
   let str := str ++ (if truthy_string (path opts)
                      then js ";path=" ++ default [] (path opts) else []) in
   let str := str ++ (match expires with
                      | Some (ExpiresDate d) => js ";expires=" ++ toUTCString d
                      | Some (ExpiresString _) => []  (* converted above *)
                      | None => []
                      end) in
   let str := str ++ (if truthy_string (domain opts)
                      then js ";domain=" ++ default [] (domain opts) else []) in
   let str := str ++ (if truthy_bool (secure opts) then js ";secure" else []) in
   let str := str ++ (if truthy_bool (httpOnly opts) then js ";HttpOnly" else []) in
   let str := str ++ (if truthy_string (sameSite opts)
                      then js ";sameSite=" ++ default [] (sameSite opts) else []) in
   let cookieLength := (length str + 1)%nat in
   u <- (if (4096 <? cookieLength)%nat
        then console_log (too_large_message name cookieLength)
        else ret tt) ;;
   ret str) st.

Definition _writeCookie (name : jsstring) (value : option jsstring)
    (options' : option CookieOptions) : M unit :=
  str <- _buildCookieString name value options' ;; set_cookieString str.

(** *** put, remove, removeAll *)

Definition put (key value : jsstring) (options' : option CookieOptions) : M unit :=
  _writeCookie key (Some value) options'.

Definition remove (key : jsstring) (options' : option CookieOptions) : M unit :=
  _writeCookie key None options'.

Definition removeAll (options' : option CookieOptions) : M unit :=
  cookies <- getAll ;;
  fun st => forEach (fun key => remove key options')
                    (Object_keys (deref (heap st) cookies)) st.

End Service.
End CookieService.

(** ** Specification-level definitions *)

Section Specification.
Context `{Platform} `{Host}.
Import CookieService.

(** The date to print: a textual expiration is converted first. *)
Definition expiry_date (e : option Expires) : option Date :=
  match e with
  | Some (ExpiresString s) => Some (Date_new s)
  | Some (ExpiresDate d) => Some d
  | None => None
  end.

(** The attribute segments, in the order of the spec: path, expiration,
    domain, secure flag, httpOnly flag, sameSite policy, each only if
    present. *)
Definition attribute_segments (opts : CookieOptions) (date : option Date)
    : list jsstring :=
  (if truthy_string (path opts) then [js "path=" ++ default [] (path opts)] else [])
  ++ (match date with Some d => [js "expires=" ++ toUTCString d] | None => [] end)
  ++ (if truthy_string (domain opts) then [js "domain=" ++ default [] (domain opts)] else [])
  ++ (if truthy_bool (secure opts) then [js "secure"] else [])
  ++ (if truthy_bool (httpOnly opts) then [js "HttpOnly"] else [])
  ++ (if truthy_string (sameSite opts) then [js "sameSite=" ++ default [] (sameSite opts)] else []).

(** Name, [=], value, then the attribute segments each prefixed with [;]. *)
Definition assemble (encodedName cookieValue : jsstring)
    (segments : list jsstring) : jsstring :=
  encodedName ++ js "=" ++ cookieValue ++ concat (map (cons semicolon) segments).

(** The serialized cookie, steps 2 to 7 of the writer's algorithm, for
    merged options [opts]. *)
Definition serialize (opts : CookieOptions) (name : jsstring)
    (value : option jsstring) : Completion jsstring :=
  let v := if isBlank value then [] else default [] value in
  let date := if isBlank value then Some (Date_new epoch_string)
              else expiry_date (expires opts) in
  cbind (if truthy_bool (storeUnencoded opts) then Normal v
         else encodeURIComponent v) (fun cookieValue =>
  cbind (encodeURIComponent name) (fun encodedName =>
  Normal (assemble encodedName cookieValue (attribute_segments opts date)))).

(** The state after the diagnostic of an oversized cookie, if any. *)
Definition after_diagnostic (name str : jsstring) (st : State) : State :=
  if (4096 <? length str + 1)%nat
  then (console_log (too_large_message name (length str + 1)) st).2
  else st.

(** The cache is valid: the cached map is the parse of the cached string. *)
Definition cache_ok (st : State) : Prop :=
  deref (heap st) (_lastCookies st) = parse_cookies (_lastCookieString st).

#[global] Instance cache_ok_dec st : Decision (cache_ok st).
Proof. unfold cache_ok. apply _. Defined.

(** The name a segment of the jar string is stored under, if it has one,
    and the name and the value the reader takes it for. *)
Definition stored_name (cookie : jsstring) : option jsstring :=
  let index := indexOf equals_sign cookie in
  if index <=? 0 then None else Some (substring 0 index cookie).

Definition segment_entry (cookie : jsstring) : option (jsstring * jsstring) :=
  let index := indexOf equals_sign cookie in
  if index <=? 0 then None
  else Some (safeDecodeURIComponent (substring 0 index cookie),
             safeDecodeURIComponent (substring_from (index + 1) cookie)).

(** The segment [cookie] reads as the cookie [name]. *)
Definition reads_as (name cookie : jsstring) : Prop :=
  safeDecodeURIComponent <$> stored_name cookie = Some name.

#[global] Instance reads_as_dec name cookie : Decision (reads_as name cookie).
Proof. unfold reads_as. apply _. Defined.

(** The first segment that reads as [name], and its value. *)
Fixpoint first_named (name : jsstring) (segments : list jsstring)
    : option jsstring :=
  match segments with
  | [] => None
  | cookie :: rest =>
      if decide (reads_as name cookie) then Some cookie else first_named name rest
  end.

Fixpoint first_value (name : jsstring) (segments : list jsstring)
    : option jsstring :=
  match segments with
  | [] => None
  | cookie :: rest =>
      match segment_entry cookie with
      | Some (n, v) => if decide (n = name) then Some v else first_value name rest
      | None => first_value name rest
      end
  end.

(** The cookies the jar lists. *)
Definition listed (st : State) : list jsstring :=
  split (js "; ") (get_cookieString st).

(** The host has stored the string assigned last: the first cookie it lists
    that reads as [name] is the pair of that string. *)
Definition kept_as_assigned (name : jsstring) (st : State) : Prop :=
  match last (assigned st) with
  | Some str => first_named name (listed st) = Some (cookie_pair str)
  | None => False
  end.

#[global] Instance kept_as_assigned_dec name st : Decision (kept_as_assigned name st).
Proof. unfold kept_as_assigned. destruct (last (assigned st)); apply _. Defined.

(** The host has deleted the entry [raw]: between the jar strings [before]
    and [after] it has dropped every cookie stored under [raw] and has
    added no named cookie. *)
Definition entry_deleted (raw before after : jsstring) : Prop :=
  Forall (fun cookie => is_Some (stored_name cookie) ->
                        cookie ∈ split (js "; ") before
                        ∧ stored_name cookie <> Some raw)
         (split (js "; ") after).

#[global] Instance entry_deleted_dec raw before after :
  Decision (entry_deleted raw before after).
Proof. unfold entry_deleted. apply _. Defined.

(** Every cookie of the jar string that reads as [name] is stored under
    [raw]. *)
Definition only_stored_as (name raw s : jsstring) : Prop :=
  Forall (fun cookie => reads_as name cookie -> stored_name cookie = Some raw)
         (split (js "; ") s).

#[global] Instance only_stored_as_dec name raw s : Decision (only_stored_as name raw s).
Proof. unfold only_stored_as. apply _. Defined.

(** Every named cookie of the jar string is stored under the encoding of
    the name it reads as, as the cookies written by [put] are. *)
Definition stored_encoded (s : jsstring) : Prop :=
  Forall (fun cookie =>
            match stored_name cookie with
            | Some raw => encodeURIComponent (safeDecodeURIComponent raw) = Normal raw
            | None => True
            end)
         (split (js "; ") s).

#[global] Instance stored_encoded_dec s : Decision (stored_encoded s).
Proof.
  unfold stored_encoded. apply Forall_dec. intros cookie.
  destruct (stored_name cookie); apply _.
Defined.

(** The name under which [remove] addresses the cookie [key]. *)
Definition raw_name (key : jsstring) : jsstring :=
  match encodeURIComponent key with
  | Normal e => e
  | Throw _ => []
  end.

(** The host deletes the entry of each [remove] of the loop of
    [removeAll]. *)
Fixpoint removals_delete (o : option CookieOptions) (keys : list jsstring)
    (st : State) : Prop :=
  match keys with
  | [] => True
  | key :: rest =>
      entry_deleted (raw_name key) (get_cookieString st)
        (get_cookieString (remove key o st).2)
      ∧ removals_delete o rest (remove key o st).2
  end.

#[global] Instance removals_delete_dec o keys st : Decision (removals_delete o keys st).
Proof. revert st. induction keys; intros st; cbn; apply _. Defined.

(** The default options [{path: "/"}], and options that ask for the value
    to be stored as it is given. *)
Definition root_path : CookieOptions :=
  {| path := Some (js "/"); domain := None; expires := None; secure := None;
     httpOnly := None; sameSite := None; storeUnencoded := None |}.

Definition unencoded : CookieOptions :=
  {| path := None; domain := None; expires := None; secure := None;
     httpOnly := None; sameSite := None; storeUnencoded := Some true |}.

End Specification.

(** ** Histories of calls

    The methods of the service as calls, with the changes that other code
    makes to the jar between them. *)

Section Histories.
Context `{Platform} `{Host}.
Import CookieService.

Inductive Call :=
  | CallGet (key : jsstring)
  | CallGetObject (key : jsstring)
  | CallGetAll
  | CallPut (key value : jsstring) (options' : option CookieOptions)
  | CallRemove (key : jsstring) (options' : option CookieOptions)
  | CallRemoveAll (options' : option CookieOptions)
  | HostSets (j : Jar).

(** The state a call leaves, whether it completes or throws. *)
Definition step (st : State) (c : Call) : State :=
  match c with
  | CallGet key => (get key st).2
  | CallGetObject key => (getObject key st).2
  | CallGetAll => (getAll st).2
  | CallPut key value o => (put key value o st).2
  | CallRemove key o => (remove key o st).2
  | CallRemoveAll o => (removeAll o st).2
  | HostSets j =>
      {| _lastCookies := _lastCookies st;
         _lastCookieString := _lastCookieString st;
         options := options st;
         heap := heap st;
         document_cookie := j;
         assigned := assigned st;
         console := console st |}
  end.

Definition run (calls : list Call) (st : State) : State := foldl step st calls.

(** The world outside the service is the same in both states. *)
Definition same_world (st st' : State) : Prop :=
  document_cookie st' = document_cookie st
  ∧ assigned st' = assigned st
  ∧ console st' = console st
  ∧ options st' = options st.

(** The cache is valid and the cached map is an object of the heap. *)
Definition cache_valid (st : State) : Prop :=
  cache_ok st ∧ (_lastCookies st < length (heap st))%nat.

End Histories.

(** ** putObject

    [JSON.stringify] belongs to the host. It returns a string, or
    [undefined] for a value JSON has no text for; the values on which it
    throws (cyclic structures, BigInt) are not among the values here. *)

Class JSONStringify `{Platform} := {
  JSON_stringify : JSValue -> option jsstring;
}.

Section PutObject.
Context `{JSONStringify} `{Host}.
Import CookieService.

(** [this.put(key, JSON.stringify(value), options)]; [put] hands an
    [undefined] on to [_writeCookie] as it is. *)
Definition putObject (key : jsstring) (value : JSValue)
    (options' : option CookieOptions) : M unit :=
  match JSON_stringify value with
  | Some text => put key text options'
  | None => _writeCookie key None options'
  end.

End PutObject.

(** ** A jar in memory

    A host to run the service on: a jar that keeps the pairs as they were
    assigned, in the order of their creation, identifies a cookie by its
    name alone and accepts every write. An assignment whose attributes
    carry the epoch as expiry removes the pair of that name. Hosts that also
    tell cookies apart by path and domain, or refuse a write, are other
    instances of [Host]. *)

Abbreviation MemoryJar := (list (jsstring * jsstring)).

Definition jar_segment (e : jsstring * jsstring) : jsstring :=
  e.1 ++ [equals_sign] ++ e.2.

Definition memory_get (j : MemoryJar) : jsstring :=
  join (js "; ") (map jar_segment j).

Fixpoint jar_upsert (n v : jsstring) (j : MemoryJar) : MemoryJar :=
  match j with
  | [] => [(n, v)]
  | (n', v') :: rest =>
      if decide (n' = n) then (n, v) :: rest else (n', v') :: jar_upsert n v rest
  end.

Definition jar_delete (n : jsstring) (j : MemoryJar) : MemoryJar :=
  filter (fun e => e.1 ≠ n) j.

Definition memory_set (str : jsstring) (j : MemoryJar) : MemoryJar :=
  let pair := cookie_pair str in
  if is_expired str then jar_delete (pair_name pair) j
  else jar_upsert (pair_name pair) (pair_value pair) j.

#[export] Instance memory_host : Host := {|
  Jar := MemoryJar;
  jar_get := memory_get;
  jar_set := memory_set;
|}.

(** What this jar guarantees of its entries: no name holds [=] or [;], no
    value holds [;]. [memory_set] keeps it. *)
Definition jar_entry_ok (e : jsstring * jsstring) : Prop :=
  (equals_sign ∉ e.1) ∧ (semicolon ∉ e.1) ∧ (semicolon ∉ e.2).

Definition jar_ok (j : MemoryJar) : Prop := Forall jar_entry_ok j.

#[global] Instance jar_entry_ok_dec e : Decision (jar_entry_ok e).
Proof. unfold jar_entry_ok. apply _. Defined.

#[global] Instance jar_ok_dec j : Decision (jar_ok j).
Proof. unfold jar_ok. apply _. Defined.

Section Memory.
Context `{Platform}.
Import CookieService.

(** The invariant of the service and of its jar. *)
Definition state_ok (st : State (H0 := memory_host)) : Prop :=
  cache_ok st ∧ jar_ok (document_cookie st).

#[global] Instance state_ok_dec st : Decision (state_ok st).
Proof. unfold state_ok. apply _. Defined.

End Memory.

(** ** A small platform to run the service on

    Its [Date] reads the epoch string only; its [JSON.parse] reads the two
    boolean literals only. *)

#[export] Instance small_platform : Platform := {|
  Date := option Z;
  Date_new s := if decide (s = epoch_string) then Some 0 else None;
  toUTCString d :=
    match d with
    | Some _ => epoch_string
    | None => js "Invalid Date"
    end;
  toUTCString_epoch := eq_refl;
  JSValue := bool;
  JSON_parse s :=
    if decide (s = js "true") then Normal true
    else if decide (s = js "false") then Normal false
    else Throw SyntaxError;
  member_text name :=
    if decide (name = js "__proto__") then js "[object Object]"
    else js "function " ++ name ++ js "() { [native code] }";
|}.

(** [JSON.stringify] of the small platform. *)
#[export] Instance small_stringify : JSONStringify := {|
  JSON_stringify (v : @JSValue small_platform) :=
    Some (if v then js "true" else js "false");
|}.

(** * Properties *)

Import CookieService.

(** ** Tactics for comparisons and division on [Z] *)

Ltac bool_to_Z :=
  repeat match goal with
  | H : _ && _ = true |- _ => apply andb_prop in H; destruct H
  | H : _ || _ = false |- _ => apply orb_false_elim in H; destruct H
  | H : negb _ = true |- _ => apply negb_true_iff in H
  | H : negb _ = false |- _ => apply negb_false_iff in H
  | H : (_ <? _) = true |- _ => apply Z.ltb_lt in H
  | H : (_ <? _) = false |- _ => apply Z.ltb_ge in H
  | H : (_ <=? _) = true |- _ => apply Z.leb_le in H
  | H : (_ <=? _) = false |- _ => apply Z.leb_gt in H
  | H : (_ =? _) = true |- _ => apply Z.eqb_eq in H
  | H : (_ =? _) = false |- _ => apply Z.eqb_neq in H
  end.

Ltac div_lia := Z.to_euclidean_division_equations; lia.

Ltac case_ltb :=
  repeat match goal with
  | |- context [?a <? ?b] => destruct (Z.ltb_spec a b)
  | |- context [?a <=? ?b] => destruct (Z.leb_spec a b)
  | |- context [?a =? ?b] => destruct (Z.eqb_spec a b)
  end.

(** ** Percent-encoding: decoding what was encoded *)

Lemma hex_value_digit d : 0 <= d < 16 -> hex_value (hex_digit d) = Some d.
Proof.
  intros Hd. unfold hex_value, hex_digit.
  case_ltb; simpl; try lia; f_equal; lia.
Qed.

Lemma read_escape_octet b rest :
  0 <= b < 256 -> read_escape (escape_octet b ++ rest) = Some (b, rest).
Proof.
  intros Hb. unfold escape_octet, read_escape. simpl.
  rewrite !hex_value_digit by (div_lia).
  do 2 f_equal. div_lia.
Qed.

Lemma read_escapes_octets bs rest :
  Forall (fun b => 0 <= b < 256) bs ->
  read_escapes (length bs) (escape_octets bs ++ rest) = Some (bs, rest).
Proof.
  induction 1 as [|b bs Hb _ IH]; [done|].
  unfold escape_octets in *. cbn [map concat length read_escapes].
  rewrite <- (app_assoc (escape_octet b)), read_escape_octet by done.
  by rewrite IH.
Qed.

Lemma utf8_encode_octets cp :
  0 <= cp < 1114112 -> Forall (fun b => 0 <= b < 256) (utf8_encode cp).
Proof.
  intros Hcp. unfold utf8_encode.
  case_ltb; repeat constructor; div_lia.
Qed.

Lemma decode_step_octets b bs rest :
  0 <= b < 256 ->
  decode_step (escape_octets (b :: bs) ++ rest)
  = match leading_ones b with
    | 0%nat => Some ([b], escape_octets bs ++ rest)
    | 2%nat | 3%nat | 4%nat =>
        match read_escapes (leading_ones b - 1) (escape_octets bs ++ rest) with
        | None => None
        | Some (bs', rest') =>
            match utf8_decode (b :: bs') with
            | Some cp => Some (UTF16EncodeCodePoint cp, rest')
            | None => None
            end
        end
    | _ => None
    end.
Proof.
  intros Hb. unfold escape_octets. cbn [map concat].
  rewrite <- app_assoc.
  pose proof (read_escape_octet b (concat (map escape_octet bs) ++ rest) Hb) as Hre.
  unfold decode_step.
  change (escape_octet b ++ ?r)
    with (percent :: hex_digit (b / 16) :: hex_digit (b mod 16) :: r) in *.
  rewrite Hre. rewrite Z.eqb_refl. done.
Qed.

Lemma decode_step_escape cp rest :
  is_scalar cp ->
  decode_step (escape_octets (utf8_encode cp) ++ rest)
  = Some (UTF16EncodeCodePoint cp, rest).
Proof.
  intros [Hr Hs].
  pose proof (utf8_encode_octets cp Hr) as Hoct.
  unfold utf8_encode in *.
  destruct (Z.ltb_spec cp 128);
    [|destruct (Z.ltb_spec cp 2048); [|destruct (Z.ltb_spec cp 65536)]].
  all: inversion Hoct as [|b0 bs Hb0 Hbs]; subst.
  all: rewrite decode_step_octets by done.
  - unfold leading_ones. destruct (Z.ltb_spec cp 128); [|lia].
    unfold UTF16EncodeCodePoint. destruct (Z.ltb_spec cp 65536); [done|lia].
  - replace (leading_ones (192 + cp / 64)) with 2%nat
      by (unfold leading_ones; case_ltb; try reflexivity; div_lia).
    rewrite (read_escapes_octets [_]) by done.
    unfold utf8_decode, is_continuation.
    replace ((192 + cp / 64 - 192) * 64 + (128 + cp mod 64 - 128)) with cp
      by div_lia.
    case_ltb; simpl; try (div_lia); done.
  - replace (leading_ones (224 + cp / 4096)) with 3%nat
      by (unfold leading_ones; case_ltb; try reflexivity; div_lia).
    rewrite (read_escapes_octets [_; _]) by done.
    unfold utf8_decode, is_continuation.
    replace ((224 + cp / 4096 - 224) * 4096 + (128 + (cp / 64) mod 64 - 128) * 64
             + (128 + cp mod 64 - 128)) with cp
      by div_lia.
    case_ltb; simpl; try (div_lia); done.
  - replace (leading_ones (240 + cp / 262144)) with 4%nat
      by (unfold leading_ones; case_ltb; try reflexivity; div_lia).
    rewrite (read_escapes_octets [_; _; _]) by done.
    unfold utf8_decode, is_continuation.
    replace ((240 + cp / 262144 - 240) * 262144 + (128 + (cp / 4096) mod 64 - 128) * 4096
             + (128 + (cp / 64) mod 64 - 128) * 64 + (128 + cp mod 64 - 128)) with cp
      by div_lia.
    case_ltb; simpl; try (div_lia); done.
Qed.

Lemma decode_loop_cons fuel c rest units rest' :
  decode_step (c :: rest) = Some (units, rest') ->
  decode_loop (S fuel) (c :: rest) = cmap (app units) (decode_loop fuel rest').
Proof. intros Hs. cbn [decode_loop]. by rewrite Hs. Qed.

Lemma unreserved_range c : unreserved c = true -> 33 <= c <= 126 /\ c <> percent.
Proof.
  unfold unreserved, is_alnum, is_mark, percent.
  rewrite !orb_true_iff, !andb_true_iff, !Z.leb_le, !Z.eqb_eq. lia.
Qed.

Lemma unreserved_not_percent c : unreserved c = true -> c <> percent.
Proof. intros Hu. by apply unreserved_range. Qed.

Lemma surrogate_pair_scalar c d :
  is_lead c = true -> is_trail d = true ->
  is_scalar (UTF16SurrogatePairToCodePoint c d)
  /\ UTF16EncodeCodePoint (UTF16SurrogatePairToCodePoint c d) = [c; d].
Proof.
  unfold is_lead, is_trail, is_scalar, UTF16SurrogatePairToCodePoint, UTF16EncodeCodePoint.
  intros Hc Hd. bool_to_Z. split; [lia|].
  case_ltb; [lia|]. f_equal; [|f_equal]; div_lia.
Qed.

Lemma escape_nonempty cp : exists r, escape_octets (utf8_encode cp) = percent :: r.
Proof.
  unfold utf8_encode. case_ltb; eexists; reflexivity.
Qed.

(** Decoding what [encodeURIComponent] produced gives the string back. *)
Lemma decode_encode_fuel n : forall s,
  (length s <= n)%nat ->
  isWellFormed s = true ->
  exists e, encodeURIComponent s = Normal e
    /\ forall fuel, (length e <= fuel)%nat -> decode_loop fuel e = Normal s.
Proof.
  induction n as [|n IH]; intros s Hlen Hwf.
  { destruct s; [|simpl in Hlen; lia]. exists []. split; [done|]. by intros []. }
  destruct s as [|c t]; [exists []; split; [done|]; by intros []|].
  simpl in Hlen. cbn [isWellFormed encodeURIComponent] in *.
  destruct (unreserved c) eqn:Hu.
  - pose proof Hu as Hu0. assert (is_lead c = false) as Hl.
    { apply unreserved_range in Hu as [Hu _]. unfold is_lead.
      destruct (Z.leb_spec 55296 c); [lia|done]. }
    rewrite Hl in Hwf. bool_to_Z.
    destruct (IH t) as (e & He & Hd); [lia|done|].
    exists (c :: e). rewrite He. split; [done|].
    intros [|fuel] Hf; [simpl in Hf; lia|].
    rewrite (decode_loop_cons _ _ _ [c] e).
    + rewrite Hd by (simpl in Hf; lia). done.
    + unfold decode_step. pose proof (unreserved_not_percent c Hu0) as Hp.
      apply Z.eqb_neq in Hp. by rewrite Hp.
  - destruct (is_lead c) eqn:Hl.
    + destruct t as [|d t']; [done|]. bool_to_Z.
      match goal with H : is_trail d = true |- _ => rename H into Ht end.
      rewrite Ht.
      destruct (IH t') as (e & He & Hd); [simpl in Hlen; lia|done|].
      rewrite He. eexists. split; [reflexivity|].
      destruct (surrogate_pair_scalar c d Hl Ht) as [Hsc H16].
      destruct (escape_nonempty (UTF16SurrogatePairToCodePoint c d)) as [r Hr].
      intros fuel Hf. pose proof (decode_step_escape _ e Hsc) as Hstep.
      rewrite Hr in *. destruct fuel as [|fuel]; [simpl in Hf; lia|].
      rewrite <- app_comm_cons. rewrite <- app_comm_cons in Hstep.
      rewrite (decode_loop_cons _ _ _ _ _ Hstep), H16.
      rewrite Hd; [done|]. simpl in Hf. rewrite length_app in Hf. lia.
    + bool_to_Z.
      match goal with H : is_trail c = false |- _ => rename H into Ht end.
      rewrite Ht.
      destruct (IH t) as (e & He & Hd); [lia|done|].
      rewrite He. eexists. split; [reflexivity|].
      assert (is_scalar c /\ UTF16EncodeCodePoint c = [c]) as [Hsc H16].
      { unfold is_scalar, is_code_unit, is_lead, is_trail, UTF16EncodeCodePoint in *.
        bool_to_Z. split; [|case_ltb; [done|lia]].
        split; [lia|]. intros Hin.
        destruct (Z.leb_spec 55296 c), (Z.ltb_spec c 56320), (Z.leb_spec 56320 c), (Z.ltb_spec c 57344);
          simpl in *; try done; lia. }
      destruct (escape_nonempty c) as [r Hr].
      intros fuel Hf. pose proof (decode_step_escape _ e Hsc) as Hstep.
      rewrite Hr in *. destruct fuel as [|fuel]; [simpl in Hf; lia|].
      rewrite <- app_comm_cons. rewrite <- app_comm_cons in Hstep.
      rewrite (decode_loop_cons _ _ _ _ _ Hstep), H16.
      rewrite Hd; [done|]. simpl in Hf. rewrite length_app in Hf. lia.
Qed.

Lemma decodeURIComponent_encode s e :
  isWellFormed s = true ->
  encodeURIComponent s = Normal e ->
  decodeURIComponent e = Normal s.
Proof.
  intros Hwf He. destruct (decode_encode_fuel (length s) s) as (e' & He' & Hd); [lia|done|].
  rewrite He in He'. injection He' as <-. by apply Hd.
Qed.

Lemma encode_wellformed s :
  isWellFormed s = true -> exists e, encodeURIComponent s = Normal e.
Proof.
  intros Hwf. destruct (decode_encode_fuel (length s) s) as (e' & He' & Hd); [lia|done|]. eauto.
Qed.

(** ** Strings *)

Lemma indexOf_range c s : -1 <= indexOf c s < Z.of_nat (length s).
Proof.
  induction s as [|x t IH]; simpl; [lia|].
  destruct (x =? c); [lia|]. destruct (indexOf c t <? 0) eqn:E; lia.
Qed.

Lemma indexOf_notin c s : c ∉ s -> indexOf c s = -1.
Proof.
  induction s as [|x t IH]; intros Hn; simpl; [done|].
  apply not_elem_of_cons in Hn as [Hx Ht].
  destruct (Z.eqb_spec x c); [congruence|]. by rewrite IH.
Qed.

Lemma indexOf_app c a b : c ∉ a -> indexOf c (a ++ c :: b) = Z.of_nat (length a).
Proof.
  induction a as [|x t IH]; intros Hn; simpl.
  - by rewrite Z.eqb_refl.
  - apply not_elem_of_cons in Hn as [Hx Ht].
    destruct (Z.eqb_spec x c); [congruence|]. rewrite IH by done.
    destruct (Z.ltb_spec (Z.of_nat (length t)) 0); lia.
Qed.

Lemma indexOf_head c s : indexOf c s = 0 <-> head s = Some c.
Proof.
  destruct s as [|x t]; simpl; [split; [lia|done]|].
  destruct (Z.eqb_spec x c); [subst; done|].
  split; [|congruence]. pose proof (indexOf_range c t).
  destruct (Z.ltb_spec (indexOf c t) 0); lia.
Qed.

Lemma substring_app_l a b : substring 0 (Z.of_nat (length a)) (a ++ b) = a.
Proof.
  unfold substring. rewrite Z.sub_0_r, Nat2Z.id. change (Z.to_nat 0) with 0%nat.
  by rewrite drop_0, take_app_length.
Qed.

Lemma substring_from_app a c b :
  substring_from (Z.of_nat (length a) + 1) (a ++ c :: b) = b.
Proof.
  unfold substring_from. replace (Z.to_nat (Z.of_nat (length a) + 1)) with (length a + 1)%nat by lia.
  rewrite <- drop_drop, drop_app_length. done.
Qed.

Lemma startsWith_app p s : startsWith p (p ++ s) = true.
Proof. induction p as [|a p IH]; simpl; [done|]. by rewrite Z.eqb_refl. Qed.

Lemma split_from_skip sep x rest :
  split_from sep (length x) (x ++ rest) = split_from sep 0 rest.
Proof. induction x as [|a x IH]; simpl; [by destruct rest|done]. Qed.

Lemma split_sep c sep rest :
  split (c :: sep) ((c :: sep) ++ rest) = [] :: split (c :: sep) rest.
Proof.
  unfold split. cbn [app split_from]. 
  change (startsWith (c :: sep) (c :: sep ++ rest)) with (startsWith (c :: sep) ((c :: sep) ++ rest)).
  rewrite startsWith_app. f_equal.
  replace (length (c :: sep) - 1)%nat with (length sep) by (simpl; lia).
  apply split_from_skip.
Qed.

Lemma split_other c sep x t :
  x <> c -> split (c :: sep) (x :: t) = push_front x (split (c :: sep) t).
Proof.
  intros Hx. unfold split. cbn [split_from startsWith].
  destruct (Z.eqb_spec c x); [congruence|]. done.
Qed.

Lemma split_nonempty sep s : split sep s <> [].
Proof.
  unfold split. generalize 0%nat. induction s as [|x t IH]; intros k; simpl; [done|].
  destruct k; [|apply IH].
  destruct (startsWith sep (x :: t)); [done|].
  specialize (IH 0%nat). by destruct (split_from sep 0 t).
Qed.

Lemma split_app c sep a b :
  c ∉ a -> split (c :: sep) (a ++ (c :: sep) ++ b) = a :: split (c :: sep) b.
Proof.
  induction a as [|x t IH]; intros Hn.
  - apply split_sep.
  - apply not_elem_of_cons in Hn as [Hx Ht].
    rewrite <- app_comm_cons, split_other by done. by rewrite IH.
Qed.

Lemma split_notin c sep a : c ∉ a -> split (c :: sep) a = [a].
Proof.
  induction a as [|x t IH]; intros Hn; [done|].
  apply not_elem_of_cons in Hn as [Hx Ht].
  rewrite split_other by done. by rewrite IH.
Qed.

Lemma split_join c sep segs :
  segs <> [] -> Forall (fun seg => c ∉ seg) segs ->
  split (c :: sep) (join (c :: sep) segs) = segs.
Proof.
  induction segs as [|seg rest IH]; intros Hne Hall; [done|].
  inversion Hall as [|? ? Hseg Hrest]; subst.
  destruct rest as [|seg' rest'].
  - simpl. by apply split_notin.
  - cbn [join]. rewrite split_app by done. f_equal. by apply IH.
Qed.

Lemma elem_of_tail {A} (x : A) l : x ∈ tail l -> x ∈ l.
Proof. destruct l; simpl; [done|]. intros. by apply elem_of_cons; right. Qed.

Lemma tail_push_front c l : tail (push_front c l) = tail l.
Proof. by destruct l. Qed.

(** The attribute [x] is found whatever precedes it. *)
Lemma split_attribute c a x b :
  c ∉ x -> (b = [] ∨ exists r, b = c :: r) ->
  x ∈ tail (split [c] (a ++ [c] ++ x ++ b)).
Proof.
  intros Hx Hb.
  assert (x ∈ split [c] (x ++ b)) as Hin.
  { destruct Hb as [->|[r ->]].
    - rewrite app_nil_r, split_notin by done. set_solver.
    - change (c :: r) with ([c] ++ r). rewrite split_app by done. set_solver. }
  induction a as [|y t IH].
  - rewrite app_nil_l, split_sep. exact Hin.
  - rewrite <- app_comm_cons. destruct (decide (y = c)) as [->|Hy].
    + change (c :: t ++ [c] ++ x ++ b) with ([c] ++ (t ++ [c] ++ x ++ b)).
      rewrite split_sep. cbn [tail]. by apply elem_of_tail.
    + rewrite split_other by done. by rewrite tail_push_front.
Qed.

Lemma split_head c p b :
  c ∉ p -> (b = [] ∨ exists r, b = c :: r) ->
  hd [] (split [c] (p ++ b)) = p.
Proof.
  intros Hp [->|[r ->]].
  - by rewrite app_nil_r, split_notin.
  - change (c :: r) with ([c] ++ r). by rewrite split_app.
Qed.

(** ** What [encodeURIComponent] produces *)

Lemma escape_octets_chars bs :
  Forall (fun b => 0 <= b < 256) bs ->
  Forall (fun c => unreserved c = true ∨ c = percent) (escape_octets bs).
Proof.
  induction 1 as [|b bs Hb _ IH]; [constructor|].
  unfold escape_octets in *. cbn [map concat]. apply Forall_app. split; [|done].
  assert (forall d, 0 <= d < 16 -> unreserved (hex_digit d) = true) as Hhex.
  { intros d Hd. unfold hex_digit, unreserved, is_alnum.
    rewrite !orb_true_iff, !andb_true_iff, !Z.leb_le. destruct (Z.ltb_spec d 10); lia. }
  unfold escape_octet.
  constructor; [by right|].
  constructor; [left; apply Hhex; div_lia|].
  constructor; [left; apply Hhex; div_lia|].
  constructor.
Qed.

Lemma encode_chars_fuel n : forall s e,
  (length s <= n)%nat ->
  isWellFormed s = true ->
  encodeURIComponent s = Normal e ->
  Forall (fun c => unreserved c = true ∨ c = percent) e.
Proof.
  induction n as [|n IH]; intros s e Hlen Hwf He.
  { destruct s; [|simpl in Hlen; lia]. injection He as <-. constructor. }
  destruct s as [|c t]; [injection He as <-; constructor|].
  simpl in Hlen. cbn [encodeURIComponent isWellFormed] in He, Hwf.
  destruct (unreserved c) eqn:Hu.
  - destruct (encodeURIComponent t) as [e'|] eqn:Het; [|done]. injection He as <-.
    constructor; [by left|]. eapply IH; [| |done]; [lia|].
    destruct (is_lead c) eqn:Hl; [|by bool_to_Z].
    apply unreserved_range in Hu. unfold is_lead in Hl. bool_to_Z. lia.
  - destruct (is_lead c) eqn:Hl.
    + destruct t as [|d t']; [done|]. destruct (is_trail d) eqn:Ht; [|done].
      destruct (encodeURIComponent t') as [e'|] eqn:Het; [|done]. injection He as <-.
      apply Forall_app. split; [|eapply IH; [| |done]; [simpl in Hlen; lia|done]].
      apply escape_octets_chars, utf8_encode_octets.
      by destruct (surrogate_pair_scalar c d Hl Ht) as [[? _] _].
    + destruct (is_trail c) eqn:Ht; [done|].
      destruct (encodeURIComponent t) as [e'|] eqn:Het; [|done]. injection He as <-.
      bool_to_Z.
      apply Forall_app. split; [|eapply IH; [| |done]; [lia|done]].
      apply escape_octets_chars, utf8_encode_octets.
      unfold is_code_unit in *. bool_to_Z. lia.
Qed.

Lemma encode_chars s e :
  isWellFormed s = true -> encodeURIComponent s = Normal e ->
  (semicolon ∉ e) ∧ (equals_sign ∉ e).
Proof.
  intros Hwf He. pose proof (encode_chars_fuel (length s) s e (le_n _) Hwf He) as Hall.
  rewrite Forall_forall in Hall.
  split; intros Hin; apply Hall in Hin as [Hin|Hin]; done.
Qed.

Lemma encode_nonempty s e :
  encodeURIComponent s = Normal e -> s <> [] -> e <> [].
Proof.
  destruct s as [|c t]; [done|]. intros He _. cbn [encodeURIComponent] in He.
  destruct (unreserved c).
  { destruct (encodeURIComponent t); [|done]. by injection He as <-. }
  destruct (is_lead c).
  { destruct t as [|d t']; [done|]. destruct (is_trail d); [|done].
    destruct (encodeURIComponent t'); [|done]. injection He as <-.
    destruct (escape_nonempty (UTF16SurrogatePairToCodePoint c d)) as [r ->]. done. }
  destruct (is_trail c); [done|].
  destruct (encodeURIComponent t); [|done]. injection He as <-.
  destruct (escape_nonempty c) as [r ->]. done.
Qed.

Lemma safeDecode_encode s e :
  isWellFormed s = true -> encodeURIComponent s = Normal e ->
  safeDecodeURIComponent e = s.
Proof.
  intros Hwf He. unfold safeDecodeURIComponent. by rewrite (decodeURIComponent_encode s e).
Qed.


(** ** Plain objects *)

Lemma own_property_app o o' key :
  own_property (o ++ o') key
  = match own_property o key with
    | Some v => Some v
    | None => own_property o' key
    end.
Proof.
  induction o as [|[k v] o IH]; [done|]. cbn [app own_property].
  by destruct (decide (k = key)).
Qed.

Lemma own_property_None o key : own_property o key = None <-> key ∉ o.*1.
Proof.
  induction o as [|[k v] o IH]; cbn [own_property fmap list_fmap fst].
  - split; [intros _; apply not_elem_of_nil|done].
  - rewrite not_elem_of_cons. destruct (decide (k = key)) as [->|Hne].
    + split; [done|]. by intros [? _].
    + rewrite IH. split; [by split|by intros [_ ?]].
Qed.


(** A name is absent from an object when it is neither an own property nor
    a name of [Object.prototype]. *)
Lemma isPresent_false o key :
  isPresent (obj_get o key) = false
  <-> own_property o key = None ∧ (key ∉ Object_prototype).
Proof.
  unfold obj_get. destruct (own_property o key) as [v|].
  - split; [done|]. by intros [? _].
  - case_bool_decide as Hin.
    + split; [done|]. by intros [_ ?].
    + by split.
Qed.

Lemma obj_set_absent o key v :
  isPresent (obj_get o key) = false -> obj_set o key v = o ++ [(key, v)].
Proof.
  intros [Hown Hproto]%isPresent_false. unfold obj_set. rewrite Hown.
  rewrite decide_False; [done|]. intros ->. apply Hproto.
  apply (bool_decide_unpack _). vm_compute. exact I.
Qed.

Lemma filter_index_Permutation (keys : list jsstring) :
  filter (fun key => is_Some (array_index key)) keys
  ++ filter (fun key => array_index key = None) keys ≡ₚ keys.
Proof.
  induction keys as [|key keys IH]; [done|].
  rewrite !filter_cons. destruct (array_index key) as [i|] eqn:Hi.
  - rewrite decide_True by eauto. rewrite decide_False by done.
    cbn [app]. by f_equiv.
  - rewrite decide_False by (by intros [? ?]). rewrite decide_True by done.
    rewrite <- Permutation_middle. by f_equiv.
Qed.

Lemma Object_keys_Permutation o : Object_keys o ≡ₚ o.*1.
Proof.
  unfold Object_keys. rewrite merge_sort_Permutation.
  apply filter_index_Permutation.
Qed.

Lemma Object_keys_elem o key : key ∈ Object_keys o <-> key ∈ o.*1.
Proof. by rewrite Object_keys_Permutation. Qed.

Lemma Object_keys_NoDup o : NoDup o.*1 -> NoDup (Object_keys o).
Proof. by rewrite Object_keys_Permutation. Qed.

(** ** The reader *)

Section Reader.
Context `{Platform} `{Host}.

Lemma read_segment_at_last h m cookie :
  read_segment_at (length h) (h ++ [m]) cookie = h ++ [read_segment m cookie].
Proof.
  unfold read_segment_at. induction h as [|a h IH]; [done|].
  simpl. f_equal. apply IH.
Qed.

Lemma foldl_read_segment_at h segs : forall m,
  foldl (read_segment_at (length h)) (h ++ [m]) segs
  = h ++ [foldl read_segment m segs].
Proof.
  induction segs as [|seg segs IH]; intros m; [done|].
  simpl. by rewrite read_segment_at_last, IH.
Qed.

Lemma deref_last h m : deref (h ++ [m]) (length h) = m.
Proof. unfold deref. by rewrite list_lookup_middle. Qed.

Lemma parse_cookies_empty : parse_cookies [] = ∅.
Proof. reflexivity. Qed.

Lemma constructor_cache_ok o j : cache_ok (constructor o j).
Proof. reflexivity. Qed.

(** What one read does: it returns the cached map, which is afterwards
    the parse of the current jar string; nothing else changes. *)
Lemma _readCookies_spec st :
  cache_ok st ->
  exists l st',
    _readCookies st = (Normal l, st')
    ∧ _lastCookies st' = l
    ∧ deref (heap st') l = parse_cookies (get_cookieString st)
    ∧ _lastCookieString st' = get_cookieString st
    ∧ options st' = options st
    ∧ document_cookie st' = document_cookie st
    ∧ assigned st' = assigned st
    ∧ console st' = console st.
Proof.
  intros Hc. unfold _readCookies. destruct (decide _) as [Heq|Hne].
  - exists (_lastCookies st), st. rewrite Heq. by repeat split.
  - eexists _, _. split; [reflexivity|]. cbn.
    rewrite foldl_read_segment_at, deref_last. by repeat split.
Qed.

Lemma _readCookies_cache_ok st l st' :
  cache_ok st -> _readCookies st = (l, st') -> cache_ok st'.
Proof.
  intros Hc Hr. destruct (_readCookies_spec st Hc) as (l1 & st1 & Hr1 & Hl & Hd & Hs & _).
  rewrite Hr in Hr1. injection Hr1 as -> ->. unfold cache_ok. by rewrite Hl, Hd, Hs.
Qed.

Lemma segment_entry_stored cookie :
  segment_entry cookie
  = match stored_name cookie with
    | Some raw =>
        Some (safeDecodeURIComponent raw,
              safeDecodeURIComponent
                (substring_from (indexOf equals_sign cookie + 1) cookie))
    | None => None
    end.
Proof. unfold segment_entry, stored_name. by destruct (_ <=? 0). Qed.

Lemma reads_as_entry name cookie :
  reads_as name cookie <-> exists v, segment_entry cookie = Some (name, v).
Proof.
  unfold reads_as. rewrite segment_entry_stored.
  destruct (stored_name cookie) as [raw|]; cbn.
  - split; [intros [= <-]; eauto|]. by intros [v [= -> _]].
  - split; [done|]. by intros [? ?].
Qed.

Lemma read_segment_entry m cookie :
  read_segment m cookie
  = match segment_entry cookie with
    | Some (n, v) => if isPresent (obj_get m n) then m else m ++ [(n, v)]
    | None => m
    end.
Proof.
  unfold read_segment, segment_entry. destruct (_ <=? 0); [done|].
  destruct (isPresent _) eqn:Hp; [done|]. by apply obj_set_absent.
Qed.

(** The own properties of the object the loop fills: what the object had,
    and for a name it did not have, and that [Object.prototype] does not
    have, the value of the first segment of that name. *)
Lemma foldl_read_own name segs : forall m,
  own_property (foldl read_segment m segs) name
  = match own_property m name with
    | Some x => Some x
    | None => if bool_decide (name ∈ Object_prototype) then None
              else first_value name segs
    end.
Proof.
  induction segs as [|seg segs IH]; intros m; cbn [foldl first_value].
  { destruct (own_property m name); [done|]. by case_bool_decide. }
  rewrite IH, read_segment_entry.
  destruct (segment_entry seg) as [[n v]|]; [|done].
  destruct (isPresent (obj_get m n)) eqn:Hp.
  - destruct (own_property m name) as [x|] eqn:Hown; [done|].
    case_bool_decide as Hin; [done|].
    destruct (decide (n = name)) as [->|Hne]; [|done].
    assert (isPresent (obj_get m name) = false) as Hp'; [by apply isPresent_false|].
    congruence.
  - apply isPresent_false in Hp as [Hown Hproto].
    rewrite own_property_app. cbn [own_property].
    destruct (decide (n = name)) as [->|Hne].
    + rewrite Hown. by rewrite bool_decide_eq_false_2.
    + by destruct (own_property m name).
Qed.

Lemma parse_cookies_own s name :
  own_property (parse_cookies s) name
  = if bool_decide (name ∈ Object_prototype) then None
    else first_value name (split (js "; ") s).
Proof. unfold parse_cookies. by rewrite foldl_read_own. Qed.

(** What the parse of a jar string has for a name. *)
Lemma parse_cookies_get s name :
  obj_get (parse_cookies s) name
  = if bool_decide (name ∈ Object_prototype) then Inherited name
    else match first_value name (split (js "; ") s) with
         | Some v => OwnString v
         | None => Undefined
         end.
Proof.
  unfold obj_get. rewrite parse_cookies_own.
  case_bool_decide as Hin; [done|]. by destruct (first_value _ _).
Qed.

Lemma foldl_read_NoDup segs : forall m,
  NoDup m.*1 -> NoDup (foldl read_segment m segs).*1.
Proof.
  induction segs as [|seg segs IH]; intros m Hm; [done|]. cbn [foldl].
  apply IH. rewrite read_segment_entry.
  destruct (segment_entry seg) as [[n v]|]; [|done].
  destruct (isPresent (obj_get m n)) eqn:Hp; [done|].
  apply isPresent_false in Hp as [Hown _]. apply own_property_None in Hown.
  rewrite fmap_app. apply NoDup_app. split; [done|]. split.
  - intros x Hx Hin. apply list_elem_of_singleton in Hin. by subst.
  - apply NoDup_singleton.
Qed.

Lemma parse_cookies_NoDup s : NoDup (parse_cookies s).*1.
Proof. apply foldl_read_NoDup. constructor. Qed.



Lemma first_named_value name segs :
  first_value name segs
  = match first_named name segs with
    | Some cookie => snd <$> segment_entry cookie
    | None => None
    end.
Proof.
  induction segs as [|c segs IH]; [done|]. cbn [first_named first_value].
  destruct (decide (reads_as name c)) as [Hr|Hr].
  - apply reads_as_entry in Hr as [v Hr]. rewrite Hr. cbn.
    by rewrite decide_True.
  - destruct (segment_entry c) as [[n v]|] eqn:Hc; [|done].
    rewrite decide_False; [done|]. intros ->. apply Hr, reads_as_entry. eauto.
Qed.

Lemma get_spec key st :
  cache_ok st ->
  exists st',
    get key st = (Normal (obj_get (parse_cookies (get_cookieString st)) key), st')
    ∧ _lastCookieString st' = get_cookieString st
    ∧ cache_ok st'
    ∧ options st' = options st
    ∧ document_cookie st' = document_cookie st
    ∧ assigned st' = assigned st
    ∧ console st' = console st.
Proof.
  intros Hc.
  destruct (_readCookies_spec st Hc) as (l & st' & Hr & Hl & Hd & Hs & Ho & Hdc & Ha & Hco).
  exists st'. unfold get, bind. rewrite Hr, Hd.
  split; [done|]. split; [done|]. split; [|done].
  unfold cache_ok. by rewrite Hl, Hd, Hs.
Qed.

End Reader.
(** ** The writer *)

Section Writer.
Context `{Platform} `{Host}.

Lemma assemble_eq encodedName cookieValue opts date :
  ((((((encodedName ++ js "=" ++ cookieValue)
       ++ (if truthy_string (path opts)
           then js ";path=" ++ default [] (path opts) else []))
      ++ (match date with
          | Some d => js ";expires=" ++ toUTCString d
          | None => []
          end))
     ++ (if truthy_string (domain opts)
         then js ";domain=" ++ default [] (domain opts) else []))
    ++ (if truthy_bool (secure opts) then js ";secure" else []))
   ++ (if truthy_bool (httpOnly opts) then js ";HttpOnly" else []))
  ++ (if truthy_string (sameSite opts)
      then js ";sameSite=" ++ default [] (sameSite opts) else [])
  = assemble encodedName cookieValue (attribute_segments opts date).
Proof.
  unfold assemble, attribute_segments.
  rewrite !map_app, !concat_app, <- !app_assoc.
  do 2 f_equal.
  destruct (truthy_string (path opts)), date, (truthy_string (domain opts)),
    (truthy_bool (secure opts)), (truthy_bool (httpOnly opts)),
    (truthy_string (sameSite opts));
    cbn [map concat]; rewrite ?app_nil_r, <- ?app_assoc; reflexivity.
Qed.

Lemma _buildCookieString_spec name value o st :
  _buildCookieString name value o st
  = match serialize (mergeOptions (options st) o) name value with
    | Normal str => (Normal str, after_diagnostic name str st)
    | Throw e => (Throw e, st)
    end.
Proof.
  unfold _buildCookieString, serialize, after_diagnostic.
  set (opts := mergeOptions (options st) o).
  set (v := if isBlank value then [] else default [] value).
  set (e := if isBlank value then Some (ExpiresString epoch_string) else expires opts).
  set (date := if isBlank value then Some (Date_new epoch_string)
               else expiry_date (expires opts)).
  assert (match (if isString e
                 then option_map (fun e => ExpiresDate (new_Date e)) e else e) with
          | Some (ExpiresDate d) => js ";expires=" ++ toUTCString d
          | Some (ExpiresString _) => []
          | None => []
          end
          = match date with
            | Some d => js ";expires=" ++ toUTCString d
            | None => []
            end) as ->.
  { unfold e, date. destruct (isBlank value); [done|].
    by destruct (expires opts) as [[]|]. }
  unfold bind, lift, ret.
  destruct (if truthy_bool (storeUnencoded opts) then Normal v else encodeURIComponent v)
    as [cookieValue|err]; [|done].
  cbn [cbind]. destruct (encodeURIComponent name) as [encodedName|err]; [|done].
  cbn [cbind]. rewrite assemble_eq.
  by destruct (4096 <? _)%nat.
Qed.

End Writer.

(** ** The string the writer assigns *)

Section Assigned.
Context `{Platform} `{Host}.

Lemma prefixed_segments segs :
  concat (map (cons semicolon) segs) = []
  ∨ exists r, concat (map (cons semicolon) segs) = semicolon :: r.
Proof. destruct segs as [|seg segs]; [by left|right]. simpl. eauto. Qed.

Lemma cookie_pair_assemble en cv segs :
  semicolon ∉ en -> semicolon ∉ cv ->
  cookie_pair (assemble en cv segs) = en ++ [equals_sign] ++ cv.
Proof.
  intros Hen Hcv. unfold cookie_pair, assemble.
  change (js "=") with [equals_sign]. rewrite 2!app_assoc.
  rewrite split_head; [by rewrite <- app_assoc| |apply prefixed_segments].
  rewrite !not_elem_of_app, not_elem_of_cons. repeat split; try done.
  apply not_elem_of_nil.
Qed.

Lemma pair_name_app en cv :
  equals_sign ∉ en -> pair_name (en ++ [equals_sign] ++ cv) = en.
Proof.
  intros Hen. unfold pair_name. cbn [app]. rewrite indexOf_app by done.
  destruct (Z.ltb_spec (Z.of_nat (length en)) 0); [lia|]. apply substring_app_l.
Qed.

Lemma pair_value_app en cv :
  equals_sign ∉ en -> pair_value (en ++ [equals_sign] ++ cv) = cv.
Proof.
  intros Hen. unfold pair_value. cbn [app]. rewrite indexOf_app by done.
  destruct (Z.ltb_spec (Z.of_nat (length en)) 0); [lia|]. apply substring_from_app.
Qed.

Lemma attribute_segments_epoch opts :
  attribute_segments opts (Some (Date_new epoch_string))
  = (if truthy_string (path opts) then [js "path=" ++ default [] (path opts)] else [])
    ++ [js "expires=Thu, 01 Jan 1970 00:00:00 GMT"]
    ++ attribute_segments
         {| path := None; domain := domain opts; expires := None;
            secure := secure opts; httpOnly := httpOnly opts;
            sameSite := sameSite opts; storeUnencoded := None |} None.
Proof. unfold attribute_segments. by rewrite toUTCString_epoch. Qed.

Lemma is_expired_removal en cv opts :
  is_expired (assemble en cv (attribute_segments opts (Some (Date_new epoch_string))))
  = true.
Proof.
  unfold is_expired. apply bool_decide_eq_true. unfold cookie_attributes.
  rewrite attribute_segments_epoch. unfold assemble.
  rewrite !map_app, !concat_app. cbn [map concat]. rewrite app_nil_r.
  rewrite !app_assoc. rewrite <- (app_assoc _ (semicolon :: _)).
  change (semicolon :: ?x) with ([semicolon] ++ x).
  rewrite <- (app_assoc [semicolon]).
  apply split_attribute; [|apply prefixed_segments].
  vm_compute. intros Hin. repeat (apply elem_of_cons in Hin as [Hin|Hin]; [done|]).
  by apply elem_of_nil in Hin.
Qed.

Lemma after_diagnostic_fields name str st :
  let st' := after_diagnostic name str st in
  _lastCookies st' = _lastCookies st
  ∧ _lastCookieString st' = _lastCookieString st
  ∧ options st' = options st
  ∧ heap st' = heap st
  ∧ document_cookie st' = document_cookie st
  ∧ assigned st' = assigned st.
Proof. unfold after_diagnostic. by destruct (4096 <? _)%nat. Qed.

Lemma _writeCookie_spec name value o st :
  _writeCookie name value o st
  = match serialize (mergeOptions (options st) o) name value with
    | Normal str => set_cookieString str (after_diagnostic name str st)
    | Throw e => (Throw e, st)
    end.
Proof.
  unfold _writeCookie, bind. rewrite _buildCookieString_spec.
  by destruct (serialize _ _ _).
Qed.

Lemma serialize_blank opts name value :
  isBlank value = true ->
  serialize opts name value
  = cbind (encodeURIComponent name) (fun encodedName =>
      Normal (assemble encodedName []
                (attribute_segments opts (Some (Date_new epoch_string))))).
Proof.
  intros Hb. unfold serialize. rewrite Hb. by destruct (truthy_bool _).
Qed.

Lemma write_completes name value o st str :
  serialize (mergeOptions (options st) o) name value = Normal str ->
  exists st',
    _writeCookie name value o st = (Normal tt, st')
    ∧ (_buildCookieString name value o st).1 = Normal str
    ∧ assigned st' = assigned st ++ [str]
    ∧ document_cookie st' = jar_set str (document_cookie st).
Proof.
  intros Hser. rewrite _writeCookie_spec, _buildCookieString_spec, Hser.
  destruct (after_diagnostic_fields name str st) as (_ & _ & _ & _ & Hd & Ha).
  eexists. split; [reflexivity|]. cbn. by rewrite Hd, Ha.
Qed.

Lemma write_throws name value o st e :
  serialize (mergeOptions (options st) o) name value = Throw e ->
  _writeCookie name value o st = (Throw e, st).
Proof. intros Hser. by rewrite _writeCookie_spec, Hser. Qed.

(** One write: the heap and the cache stay as they are. *)
Lemma _writeCookie_cache name value o st :
  let st' := (_writeCookie name value o st).2 in
  heap st' = heap st
  ∧ _lastCookies st' = _lastCookies st
  ∧ _lastCookieString st' = _lastCookieString st
  ∧ options st' = options st.
Proof.
  rewrite _writeCookie_spec. destruct (serialize _ _ _) as [str|e]; [|done].
  destruct (after_diagnostic_fields name str st) as (Hl & Hls & Ho & Hh & _).
  cbn. by rewrite Hl, Hls, Ho, Hh.
Qed.

Lemma _writeCookie_cache_ok name value o st :
  cache_ok st -> cache_ok (_writeCookie name value o st).2.
Proof.
  intros Hc. destruct (_writeCookie_cache name value o st) as (Hh & Hl & Hls & _).
  unfold cache_ok. by rewrite Hh, Hl, Hls.
Qed.

(** One [remove]: the string it assigns and the state it leaves. *)
Lemma remove_step key encodedName o st :
  encodeURIComponent key = Normal encodedName ->
  exists str st',
    serialize (mergeOptions (options st) o) key None = Normal str
    ∧ str = assemble encodedName []
              (attribute_segments (mergeOptions (options st) o)
                 (Some (Date_new epoch_string)))
    ∧ remove key o st = (Normal tt, st')
    ∧ assigned st' = assigned st ++ [str]
    ∧ document_cookie st' = jar_set str (document_cookie st)
    ∧ _lastCookies st' = _lastCookies st
    ∧ _lastCookieString st' = _lastCookieString st
    ∧ heap st' = heap st
    ∧ options st' = options st.
Proof.
  intros Hen.
  assert (serialize (mergeOptions (options st) o) key None
          = Normal (assemble encodedName []
                      (attribute_segments (mergeOptions (options st) o)
                         (Some (Date_new epoch_string))))) as Hser.
  { rewrite serialize_blank by done. by rewrite Hen. }
  destruct (write_completes key None o st _ Hser) as (st' & Hw & _ & Ha & Hd).
  destruct (_writeCookie_cache key None o st) as (Hh & Hl & Hls & Ho).
  rewrite Hw in Hh, Hl, Hls, Ho. cbn in Hh, Hl, Hls, Ho.
  eexists _, st'. split; [exact Hser|]. split; [reflexivity|].
  split; [exact Hw|]. by repeat split.
Qed.

End Assigned.

(** ** What a call leaves alone *)

Section Frames.
Context `{Platform} `{Host}.

(** One read, in any state: what it leaves alone and what it allocates. *)
Lemma _readCookies_frame st :
  exists l st',
    _readCookies st = (Normal l, st')
    ∧ same_world st st'
    ∧ heap st `prefix_of` heap st'
    ∧ _lastCookies st' = l
    ∧ ((_lastCookies st < length (heap st))%nat ->
       (_lastCookies st' < length (heap st'))%nat).
Proof.
  unfold _readCookies. destruct (decide _) as [Heq|Hne].
  - exists (_lastCookies st), st. unfold same_world. repeat split; done.
  - eexists _, _. split; [reflexivity|]. unfold same_world. cbn.
    rewrite foldl_read_segment_at, length_app. cbn.
    repeat split; try done; [by apply prefix_app_r|lia].
Qed.

Lemma get_frame key st :
  exists v st',
    get key st = (Normal v, st')
    ∧ same_world st st'
    ∧ heap st `prefix_of` heap st'
    ∧ ((_lastCookies st < length (heap st))%nat ->
       (_lastCookies st' < length (heap st'))%nat).
Proof.
  destruct (_readCookies_frame st) as (l & st' & Hr & Hw & Hp & _ & Hl).
  exists (obj_get (deref (heap st') l) key), st'. unfold get, bind. rewrite Hr.
  exact (conj eq_refl (conj Hw (conj Hp Hl))).
Qed.

Lemma getObject_frame key st :
  exists v st',
    getObject key st = (Normal v, st')
    ∧ same_world st st'
    ∧ heap st `prefix_of` heap st'
    ∧ ((_lastCookies st < length (heap st))%nat ->
       (_lastCookies st' < length (heap st'))%nat).
Proof.
  destruct (get_frame key st) as (v & st' & Hg & Hw & Hp & Hl).
  unfold getObject, bind. rewrite Hg.
  destruct (truthy v).
  - unfold lift, safeJsonParse.
    destruct (JSON_parse (ToString v)); eexists _, st';
      exact (conj eq_refl (conj Hw (conj Hp Hl))).
  - eexists _, st'. exact (conj eq_refl (conj Hw (conj Hp Hl))).
Qed.

Lemma forEach_remove_cache o keys : forall st,
  let st' := (forEach (fun key => remove key o) keys st).2 in
  heap st' = heap st
  ∧ _lastCookies st' = _lastCookies st
  ∧ _lastCookieString st' = _lastCookieString st
  ∧ options st' = options st.
Proof.
  induction keys as [|key keys IH]; intros st; [done|].
  cbn [forEach]. unfold bind.
  destruct (_writeCookie_cache key None o st) as (Hh & Hl & Hls & Ho).
  fold (remove key o st) in Hh, Hl, Hls, Ho.
  destruct (remove key o st) as [[[]|e] st1]; cbn in Hh, Hl, Hls, Ho;
    cbv beta iota zeta.
  - destruct (IH st1) as (Hh' & Hl' & Hls' & Ho').
    by rewrite Hh', Hl', Hls', Ho', Hh, Hl, Hls, Ho.
  - done.
Qed.

Lemma cache_valid_fields st st' :
  heap st' = heap st ->
  _lastCookies st' = _lastCookies st ->
  _lastCookieString st' = _lastCookieString st ->
  cache_valid st -> cache_valid st'.
Proof. unfold cache_valid, cache_ok. by intros -> -> ->. Qed.

Lemma _readCookies_valid st : cache_valid st -> cache_valid (_readCookies st).2.
Proof.
  intros [Hc Hl].
  destruct (_readCookies_frame st) as (l & st' & Hr & _ & _ & _ & Hl').
  split.
  - apply (_readCookies_cache_ok st (_readCookies st).1); [done|].
    by destruct (_readCookies st).
  - rewrite Hr. by apply Hl'.
Qed.

(** A call keeps the cache valid and only ever adds objects to the heap. *)
Lemma step_valid st c :
  cache_valid st ->
  cache_valid (step st c) ∧ heap st `prefix_of` heap (step st c).
Proof.
  intros Hv. destruct c as [key|key| |key value o|key o|o|j]; cbn [step].
  - unfold get, bind.
    pose proof (_readCookies_valid st Hv) as Hv'.
    destruct (_readCookies_frame st) as (l & st' & Hr & _ & Hp & _).
    rewrite Hr in *. done.
  - destruct (getObject_frame key st) as (v & st' & Hg & _ & Hp & _).
    rewrite Hg. split; [|done]. unfold getObject, bind in Hg.
    pose proof (_readCookies_valid st Hv) as Hv'.
    unfold get, bind in Hg.
    destruct (_readCookies st) as [[l|e] st1]; cbn in *.
    + destruct (truthy (obj_get (deref (heap st1) l) key));
        unfold ret, lift in Hg; by injection Hg as _ <-.
    + discriminate Hg.
  - pose proof (_readCookies_valid st Hv) as Hv'.
    destruct (_readCookies_frame st) as (l & st' & Hr & _ & Hp & _).
    unfold getAll. rewrite Hr in *. done.
  - destruct (_writeCookie_cache key (Some value) o st) as (Hh & Hl & Hls & _).
    unfold put. split; [by eapply cache_valid_fields|by rewrite Hh].
  - destruct (_writeCookie_cache key None o st) as (Hh & Hl & Hls & _).
    unfold remove. split; [by eapply cache_valid_fields|by rewrite Hh].
  - unfold removeAll, bind, getAll.
    pose proof (_readCookies_valid st Hv) as Hv'.
    destruct (_readCookies_frame st) as (l & st' & Hr & _ & Hp & _).
    rewrite Hr in *. cbn in Hv'.
    destruct (forEach_remove_cache o (Object_keys (deref (heap st') l)) st')
      as (Hh & Hl & Hls & _).
    split; [by eapply cache_valid_fields|by rewrite Hh].
  - split; [|done]. by eapply cache_valid_fields.
Qed.

Lemma run_valid calls : forall st,
  cache_valid st ->
  cache_valid (run calls st) ∧ heap st `prefix_of` heap (run calls st).
Proof.
  unfold run. induction calls as [|c calls IH]; intros st Hv; [done|].
  cbn [foldl]. destruct (step_valid st c Hv) as [Hv1 Hp1].
  destruct (IH _ Hv1) as [Hv2 Hp2]. split; [done|]. by etrans.
Qed.

Lemma constructor_valid provided j : cache_valid (constructor provided j).
Proof. split; [reflexivity|cbn; lia]. Qed.


End Frames.

(** ** What the reader finds in the jar string *)

Section Listed.
Context `{Platform} `{Host}.

(** The pair a write assigns, as a segment of the jar string. *)
Lemma segment_entry_pair en cv :
  en <> [] -> equals_sign ∉ en ->
  segment_entry (en ++ [equals_sign] ++ cv)
  = Some (safeDecodeURIComponent en, safeDecodeURIComponent cv).
Proof.
  intros Hne Hn. unfold segment_entry. cbn [app]. rewrite indexOf_app by done.
  destruct (Z.leb_spec (Z.of_nat (length en)) 0) as [Hl|_].
  { destruct en; [done|simpl in Hl; lia]. }
  by rewrite substring_app_l, substring_from_app.
Qed.

Lemma first_named_reads name segs cookie :
  first_named name segs = Some cookie -> reads_as name cookie.
Proof.
  induction segs as [|c segs IH]; [done|]. cbn [first_named].
  destruct (decide (reads_as name c)); [by intros [= <-]|exact IH].
Qed.

Lemma first_value_None name segs :
  first_value name segs = None <-> Forall (fun cookie => ¬ reads_as name cookie) segs.
Proof.
  induction segs as [|c segs IH]; cbn [first_value]; [by split; [constructor|]|].
  rewrite Forall_cons, <- IH.
  destruct (segment_entry c) as [[n v]|] eqn:Hc.
  - destruct (decide (n = name)) as [->|Hne].
    + split; [done|]. intros [Hr _]. exfalso. apply Hr, reads_as_entry. eauto.
    + split; [|by intros [_ ?]]. intros Hf. split; [|done].
      intros [v' Hr]%reads_as_entry. congruence.
  - split; [|by intros [_ ?]]. intros Hf. split; [|done].
    intros [v' Hr]%reads_as_entry. congruence.
Qed.

(** [get] when the first cookie that reads as the key is known. *)
Lemma get_first_named key cookie st :
  cache_ok st -> key ∉ Object_prototype ->
  first_named key (listed st) = Some cookie ->
  exists v st',
    segment_entry cookie = Some (key, v)
    ∧ get key st = (Normal (OwnString v), st').
Proof.
  intros Hc Hproto Hfirst.
  destruct (get_spec key st Hc) as (st' & Hg & _).
  pose proof (first_named_reads _ _ _ Hfirst) as [v Hv]%reads_as_entry.
  exists v, st'. split; [done|]. rewrite Hg, parse_cookies_get.
  rewrite bool_decide_eq_false_2 by done.
  fold (listed st). by rewrite first_named_value, Hfirst, Hv.
Qed.

(** [get] when no cookie reads as the key. *)
Lemma get_not_listed key st :
  cache_ok st -> key ∉ Object_prototype ->
  Forall (fun cookie => ¬ reads_as key cookie) (listed st) ->
  exists st', get key st = (Normal Undefined, st').
Proof.
  intros Hc Hproto Hnone.
  destruct (get_spec key st Hc) as (st' & Hg & _).
  exists st'. rewrite Hg, parse_cookies_get.
  rewrite bool_decide_eq_false_2 by done. fold (listed st).
  apply first_value_None in Hnone. by rewrite Hnone.
Qed.



Lemma reads_as_named name cookie : reads_as name cookie -> is_Some (stored_name cookie).
Proof. unfold reads_as. by destruct (stored_name cookie); [eauto|]. Qed.

End Listed.

(** ** The fuel of [decodeURIComponent] *)

Lemma read_escape_shorter s b rest :
  read_escape s = Some (b, rest) -> (length rest < length s)%nat.
Proof.
  destruct s as [|p [|h [|l t]]]; try done. simpl.
  destruct (p =? percent); [|done].
  destruct (hex_value h), (hex_value l); try done.
  intros [= _ <-]. lia.
Qed.

Lemma read_escapes_shorter n : forall s bs rest,
  read_escapes n s = Some (bs, rest) -> (length rest <= length s)%nat.
Proof.
  induction n as [|n IH]; intros s bs rest; cbn [read_escapes].
  { intros [= _ <-]. lia. }
  destruct (read_escape s) as [[b r]|] eqn:Hr; [|done].
  destruct (read_escapes n r) as [[bs' r']|] eqn:Hrs; [|done].
  intros [= _ <-]. apply read_escape_shorter in Hr. apply IH in Hrs. lia.
Qed.

Lemma decode_step_shorter s units rest :
  decode_step s = Some (units, rest) -> (length rest < length s)%nat.
Proof.
  destruct s as [|c t]; [done|]. unfold decode_step.
  destruct (c =? percent); [|intros [= _ <-]; simpl; lia].
  destruct (read_escape (c :: t)) as [[b r]|] eqn:Hr; [|done].
  apply read_escape_shorter in Hr.
  destruct (leading_ones b) as [|[|[|[|[|k]]]]]; try done.
  1: { intros [= _ <-]. done. }
  all: destruct (read_escapes _ r) as [[bs r']|] eqn:Hrs; [|done];
    apply read_escapes_shorter in Hrs;
    destruct (utf8_decode (b :: bs)); [|done];
    intros [= _ <-]; lia.
Qed.

(** The length of the string is enough fuel: more changes nothing. *)
Lemma decode_loop_fuel fuel : forall s,
  (length s <= fuel)%nat -> decode_loop fuel s = decodeURIComponent s.
Proof.
  unfold decodeURIComponent.
  induction fuel as [fuel IH] using lt_wf_ind. intros s Hlen.
  destruct s as [|c t]; [by destruct fuel|].
  destruct fuel as [|fuel]; [simpl in Hlen; lia|].
  cbn [length decode_loop].
  destruct (decode_step (c :: t)) as [[units rest]|] eqn:Hs; [|done].
  apply decode_step_shorter in Hs. simpl in Hs, Hlen.
  rewrite (IH fuel) by lia. by rewrite (IH (length t)) by lia.
Qed.

(** ** The jar in memory *)

Lemma split_head_notin c s : c ∉ hd [] (split [c] s).
Proof.
  induction s as [|x t IH]; [apply not_elem_of_nil|].
  destruct (decide (x = c)) as [->|Hx].
  - change (c :: t) with ([c] ++ t). rewrite split_sep. apply not_elem_of_nil.
  - rewrite split_other by done.
    pose proof (split_nonempty [c] t) as Hne.
    destruct (split [c] t) as [|seg segs]; [done|]. simpl in *.
    by apply not_elem_of_cons.
Qed.

Lemma take_indexOf_notin c s : c ∉ take (Z.to_nat (indexOf c s)) s.
Proof.
  induction s as [|x t IH]; [apply not_elem_of_nil|].
  cbn [indexOf]. destruct (Z.eqb_spec x c) as [|Hx]; [apply not_elem_of_nil|].
  pose proof (indexOf_range c t).
  destruct (Z.ltb_spec (indexOf c t) 0); [apply not_elem_of_nil|].
  replace (Z.to_nat (indexOf c t + 1)) with (S (Z.to_nat (indexOf c t))) by lia.
  cbn [take]. by apply not_elem_of_cons.
Qed.

Lemma not_elem_of_take {A} (x : A) n l : x ∉ l -> x ∉ take n l.
Proof. intros Hn Hin. apply Hn. by apply (subseteq_take n l). Qed.

Lemma not_elem_of_drop {A} (x : A) n l : x ∉ l -> x ∉ drop n l.
Proof. intros Hn Hin. apply Hn. by apply (subseteq_drop n l). Qed.

Lemma pair_entry_ok pair :
  semicolon ∉ pair -> jar_entry_ok (pair_name pair, pair_value pair).
Proof.
  intros Hp. unfold jar_entry_ok, pair_name, pair_value. cbn [fst snd].
  destruct (indexOf equals_sign pair <? 0).
  - repeat split; try done; apply not_elem_of_nil.
  - unfold substring, substring_from. rewrite Z.sub_0_r.
    change (Z.to_nat 0) with 0%nat. rewrite drop_0. repeat split.
    + apply take_indexOf_notin.
    + by apply not_elem_of_take.
    + by apply not_elem_of_drop.
Qed.

Lemma hd_push_front c segs :
  segs <> [] -> hd [] (push_front c segs) = c :: hd [] segs.
Proof. by destruct segs. Qed.

Lemma split_head_app c p s :
  c ∉ p -> hd [] (split [c] (p ++ s)) = p ++ hd [] (split [c] s).
Proof.
  induction p as [|x t IH]; intros Hn; [done|].
  apply not_elem_of_cons in Hn as [Hx Ht].
  rewrite <- app_comm_cons, split_other by done.
  rewrite hd_push_front by apply split_nonempty. by rewrite IH.
Qed.

(** The jar keeps its entries well formed, whatever string is assigned. *)
Section MemoryJar.
Context `{Platform}.

Lemma jar_segment_no_semicolon e : jar_entry_ok e -> semicolon ∉ jar_segment e.
Proof.
  intros (_ & Hn & Hv). unfold jar_segment.
  rewrite !not_elem_of_app, not_elem_of_cons. repeat split; try done.
  apply not_elem_of_nil.
Qed.

Lemma segment_entry_jar n v :
  equals_sign ∉ n ->
  segment_entry (jar_segment (n, v))
  = if decide (n = []) then None
    else Some (safeDecodeURIComponent n, safeDecodeURIComponent v).
Proof.
  intros Hn. unfold segment_entry, jar_segment. cbn [fst snd app].
  rewrite indexOf_app by done.
  destruct (decide (n = [])) as [->|Hne]; [done|].
  destruct (Z.leb_spec (Z.of_nat (length n)) 0) as [Hl|_].
  { destruct n; [done|simpl in Hl; lia]. }
  by rewrite substring_app_l, substring_from_app.
Qed.

Lemma jar_ok_upsert n v j :
  jar_ok j -> jar_entry_ok (n, v) -> jar_ok (jar_upsert n v j).
Proof.
  intros Hj He. induction Hj as [|[n' v'] j He' Hj IH]; simpl.
  - constructor; [done|constructor].
  - destruct (decide (n' = n)); constructor; done.
Qed.

Lemma jar_ok_delete n j : jar_ok j -> jar_ok (jar_delete n j).
Proof.
  unfold jar_ok, jar_delete. rewrite !Forall_forall. intros Hj e He.
  apply list_elem_of_filter in He as [_ He]. by apply Hj.
Qed.

Lemma memory_set_ok str j : jar_ok j -> jar_ok (memory_set str j).
Proof.
  intros Hj. unfold memory_set. destruct (is_expired str).
  - by apply jar_ok_delete.
  - apply jar_ok_upsert; [done|]. apply pair_entry_ok, split_head_notin.
Qed.

(** The cookies the jar lists are its entries. *)
Lemma memory_first_value j name :
  jar_ok j ->
  first_value name (split (js "; ") (memory_get j))
  = first_value name (map jar_segment j).
Proof.
  intros Hok. unfold memory_get.
  destruct j as [|e j]; [done|].
  change (js "; ") with (semicolon :: [32]).
  rewrite split_join; [done|done|].
  apply Forall_fmap. eapply Forall_impl; [exact Hok|].
  intros e' He'. by apply jar_segment_no_semicolon.
Qed.

Lemma first_value_other_delete other en (j : MemoryJar) :
  jar_ok j -> en = [] ∨ safeDecodeURIComponent en <> other ->
  first_value other (map jar_segment (jar_delete en j))
  = first_value other (map jar_segment j).
Proof.
  intros Hj Hen. unfold jar_delete.
  induction Hj as [|[n v] j He Hj IH]; [done|].
  destruct He as (He & _). simpl in He.
  rewrite filter_cons. cbn [fst map first_value].
  rewrite segment_entry_jar by done.
  destruct (decide (n ≠ en)) as [Hne|Heq].
  - cbn [map first_value]. rewrite segment_entry_jar by done.
    destruct (decide (n = [])); [done|]. by destruct (decide _).
  - apply dec_stable in Heq. subst n.
    destruct (decide (en = [])); [done|].
    destruct Hen as [?|Hen]; [done|]. by rewrite decide_False.
Qed.

Lemma first_value_other_upsert other en v (j : MemoryJar) :
  jar_ok j -> equals_sign ∉ en ->
  en = [] ∨ safeDecodeURIComponent en <> other ->
  first_value other (map jar_segment (jar_upsert en v j))
  = first_value other (map jar_segment j).
Proof.
  intros Hj Heq Hen.
  assert (forall v', first_value other (jar_segment (en, v') :: [])
                     = None) as Hskip.
  { intros v'. cbn [first_value]. rewrite segment_entry_jar by done.
    destruct (decide (en = [])); [done|].
    destruct Hen as [?|Hen]; [done|]. by rewrite decide_False. }
  induction Hj as [|[n v0] j He Hj IH]; cbn [jar_upsert map].
  - apply Hskip.
  - destruct He as (He & _). simpl in He.
    destruct (decide (n = en)) as [->|Hne]; cbn [map first_value].
    + rewrite !segment_entry_jar by done.
      destruct (decide (en = [])); [done|].
      destruct Hen as [?|Hen]; [done|]. by rewrite !decide_False.
    + rewrite segment_entry_jar by done.
      destruct (decide (n = [])); [done|]. by destruct (decide _).
Qed.

Lemma cookie_pair_name en cv segs :
  semicolon ∉ en -> equals_sign ∉ en ->
  pair_name (cookie_pair (assemble en cv segs)) = en.
Proof.
  intros Hsemi Heq. unfold cookie_pair, assemble.
  change (js "=") with [equals_sign].
  rewrite split_head_app by done.
  change ([equals_sign] ++ ?r) with (equals_sign :: r).
  rewrite split_other by done.
  rewrite hd_push_front by apply split_nonempty.
  by apply (pair_name_app en).
Qed.

(** The jar after a write to [name]: as before, or without the cookies
    stored as the encoded name, or with one of them set. *)
Lemma write_jar name value o (st : State (H0 := memory_host)) en :
  encodeURIComponent name = Normal en ->
  semicolon ∉ en -> equals_sign ∉ en ->
  let j := document_cookie st in
  let j' := document_cookie (_writeCookie name value o st).2 in
  j' = j ∨ j' = jar_delete en j ∨ exists v, j' = jar_upsert en v j.
Proof.
  intros Hen Hsemi Heq j j'. unfold j'.
  rewrite _writeCookie_spec. unfold serialize. rewrite Hen.
  destruct (if truthy_bool _ then _ else _) as [cv|e]; cbn [cbind]; [|by left].
  set (str := assemble _ _ _).
  destruct (after_diagnostic_fields name str st) as (_ & _ & _ & _ & Hd & _).
  cbn. rewrite Hd. unfold memory_set, str. rewrite cookie_pair_name by done.
  destruct (is_expired _); [right; by left|right; right; by eexists].
Qed.

Lemma _writeCookie_ok name value o st :
  state_ok st -> state_ok (_writeCookie name value o st).2.
Proof.
  intros [Hc Hj]. split; [by apply _writeCookie_cache_ok|].
  rewrite _writeCookie_spec.
  destruct (serialize _ _ _) as [str|e]; [|done].
  destruct (after_diagnostic_fields name str st) as (_ & _ & _ & _ & Hd & _).
  cbn. rewrite Hd. by apply memory_set_ok.
Qed.

End MemoryJar.
(** * The claims *)

Section Claims.
Context `{Platform} `{Host}.

(** C1 (as amended). For every non-empty well-formed name that
    [Object.prototype] does not have, and every well-formed value that the
    writer does not treat as blank, when the merged options do not ask for
    raw storage, [put name value] followed by [get name] returns [value]:
    the reader's decoding inverts the writer's percent-encoding. The host is
    any host that has stored the assigned string: the first cookie it lists
    that reads as [name] is the pair of that string. *)
Theorem put_then_get name value o st :
  name <> [] ->
  isWellFormed name = true ->
  name ∉ Object_prototype ->
  isWellFormed value = true ->
  isBlank (Some value) = false ->
  truthy_bool (storeUnencoded (mergeOptions (options st) o)) = false ->
  cache_ok st ->
  kept_as_assigned name (put name value o st).2 ->
  exists st1 st2,
    put name value o st = (Normal tt, st1)
    ∧ get name st1 = (Normal (OwnString value), st2).
Proof.
  intros Hne Hwn Hproto Hwv Hb Hu Hc Hkept.
  destruct (encode_wellformed name Hwn) as [encodedName Hen].
  destruct (encode_wellformed value Hwv) as [cv Hcv].
  destruct (encode_chars name encodedName Hwn Hen) as [Hsemi Heq].
  destruct (encode_chars value cv Hwv Hcv) as [Hvsemi _].
  assert (serialize (mergeOptions (options st) o) name (Some value)
          = Normal (assemble encodedName cv
                      (attribute_segments (mergeOptions (options st) o)
                         (expiry_date (expires (mergeOptions (options st) o))))))
    as Hser.
  { unfold serialize. rewrite Hb, Hu. cbn [default from_option id].
    by rewrite Hcv, Hen. }
  destruct (write_completes name (Some value) o st _ Hser) as (st1 & Hw & _ & Ha & _).
  unfold put in *. rewrite Hw in Hkept. cbn [snd] in Hkept.
  unfold kept_as_assigned in Hkept. rewrite Ha, last_snoc in Hkept.
  rewrite cookie_pair_assemble in Hkept by done.
  pose proof (_writeCookie_cache_ok name (Some value) o st Hc) as Hc1.
  rewrite Hw in Hc1.
  destruct (get_first_named name _ st1 Hc1 Hproto Hkept) as (v & st2 & Hv & Hg).
  rewrite segment_entry_pair in Hv by (by try eapply encode_nonempty).
  injection Hv as _ <-. rewrite (safeDecode_encode value cv) in Hg by done.
  by exists st1, st2.
Qed.

(** C2. The jar string "a=1; b=2; a=3" parses to {a: "1", b: "2"}, as
    the claim says. The claim fails for the names [Object.prototype] has:
    the reader tests a name by reading the property, finds the inherited
    member, and skips the first occurrence as it skips a duplicate. The
    jar string "toString=1; toString=2" has two segments that read as
    "toString"; it parses to an object without own properties, [getAll]
    returns that object, and [get] yields the inherited member, not "1". *)
Theorem inherited_name_loses_first_occurrence st :
  cache_ok st ->
  get_cookieString st = js "toString=1; toString=2" ->
  parse_cookies (js "a=1; b=2; a=3") = [(js "a", js "1"); (js "b", js "2")]
  ∧ segment_entry (js "toString=1") = Some (js "toString", js "1")
  ∧ segment_entry (js "toString=2") = Some (js "toString", js "2")
  ∧ (exists l st', getAll st = (Normal l, st')
                   ∧ deref (heap st') l = ∅
                   ∧ Object_keys (deref (heap st') l) = [])
  ∧ (exists st', get (js "toString") st
                 = (Normal (Inherited (js "toString")), st')).
Proof.
  intros Hc Hs.
  split; [reflexivity|]. split; [reflexivity|]. split; [reflexivity|]. split.
  - destruct (_readCookies_spec st Hc) as (l & st' & Hr & _ & Hd & _).
    exists l, st'. split; [exact Hr|]. rewrite Hd, Hs. by split.
  - destruct (get_spec (js "toString") st Hc) as (st' & Hg & _).
    exists st'. by rewrite Hg, Hs.
Qed.

(** C3. A second [getAll], with the raw jar string equal to the one the
    first call saw, parses nothing: it returns the same object, the location
    the first call returned, and leaves the state, the heap included,
    untouched. *)
Theorem cache_hit st :
  exists l st1,
    getAll st = (Normal l, st1)
    ∧ getAll st1 = (Normal l, st1)
    ∧ (forall st',
          _lastCookies st' = _lastCookies st1 ->
          _lastCookieString st' = _lastCookieString st1 ->
          get_cookieString st' = get_cookieString st1 ->
          getAll st' = (Normal l, st')).
Proof.
  assert (exists l st1, getAll st = (Normal l, st1)
            ∧ _lastCookies st1 = l
            ∧ _lastCookieString st1 = get_cookieString st1) as (l & st1 & Hg & Hl & Hs).
  { unfold getAll, _readCookies. destruct (decide _) as [Heq|Hne].
    - by exists (_lastCookies st), st.
    - eexists _, _. split; [reflexivity|]. by split. }
  exists l, st1. split; [exact Hg|].
  assert (forall st', _lastCookies st' = _lastCookies st1 ->
            _lastCookieString st' = _lastCookieString st1 ->
            get_cookieString st' = get_cookieString st1 ->
            getAll st' = (Normal l, st')) as Hhit.
  { intros st' Hl' Hs' Hc'. unfold getAll, _readCookies.
    rewrite decide_True by congruence. by rewrite Hl', Hl. }
  split; [by apply Hhit|exact Hhit].
Qed.

(** C4 (as amended). For a blank value the writer builds the encoded name,
    [=], an empty value and, among the attributes, the expiry
    "Thu, 01 Jan 1970 00:00:00 GMT", for every name that can be encoded, and
    throws the URIError of [encodeURIComponent] for the others; [remove]
    passes such a value. For a well-formed name that [Object.prototype] does
    not have, when every cookie of the jar that reads as the name is stored
    under the encoded name and the host deletes that entry, [remove]
    assigns that one string and [get] then yields [undefined]. *)
Theorem remove_then_get name o st :
  (forall value, isBlank value = true ->
     (_buildCookieString name value o st).1
     = cbind (encodeURIComponent name) (fun encodedName =>
         Normal (assemble encodedName []
                   (attribute_segments (mergeOptions (options st) o)
                      (Some (Date_new epoch_string))))))
  ∧ attribute_segments (mergeOptions (options st) o) (Some (Date_new epoch_string))
    = (if truthy_string (path (mergeOptions (options st) o))
       then [js "path=" ++ default [] (path (mergeOptions (options st) o))]
       else [])
      ++ js "expires=Thu, 01 Jan 1970 00:00:00 GMT"
         :: attribute_segments
              {| path := None;
                 domain := domain (mergeOptions (options st) o);
                 expires := None;
                 secure := secure (mergeOptions (options st) o);
                 httpOnly := httpOnly (mergeOptions (options st) o);
                 sameSite := sameSite (mergeOptions (options st) o);
                 storeUnencoded := None |} None
  ∧ (isWellFormed name = true ->
     name ∉ Object_prototype ->
     cache_ok st ->
     only_stored_as name (raw_name name) (get_cookieString st) ->
     entry_deleted (raw_name name) (get_cookieString st)
       (get_cookieString (remove name o st).2) ->
     exists str st1 st2,
       remove name o st = (Normal tt, st1)
       ∧ (_buildCookieString name None o st).1 = Normal str
       ∧ is_expired str = true
       ∧ assigned st1 = assigned st ++ [str]
       ∧ document_cookie st1 = jar_set str (document_cookie st)
       ∧ get name st1 = (Normal Undefined, st2)).
Proof.
  split; [|split].
  - intros value Hb.
    rewrite _buildCookieString_spec, serialize_blank by done.
    by destruct (encodeURIComponent name).
  - apply attribute_segments_epoch.
  - intros Hwf Hproto Hc Hs Hdel.
    destruct (encode_wellformed name Hwf) as [encodedName Hen].
    destruct (remove_step name encodedName o st Hen)
      as (str & st1 & Hser & Hstr & Hrem & Ha & Hd & Hl & Hls & Hh & _).
    rewrite Hrem in Hdel. cbn [snd] in Hdel.
    assert (cache_ok st1) as Hc1.
    { unfold cache_ok. by rewrite Hl, Hls, Hh. }
    destruct (get_not_listed name st1 Hc1 Hproto) as [st2 Hg].
    { unfold entry_deleted, only_stored_as in *.
      rewrite Forall_forall in Hdel, Hs. apply Forall_forall.
      intros cookie Hin Hr.
      destruct (Hdel cookie Hin (reads_as_named _ _ Hr)) as [Hin0 Hnot].
      by apply Hnot, Hs. }
    exists str, st1, st2. split; [exact Hrem|].
    split; [by rewrite _buildCookieString_spec, Hser|].
    split; [rewrite Hstr; apply is_expired_removal|]. done.
Qed.

(** C5. For a value that is not blank the writer produces the encoded name,
    [=], the value (encoded, or as it is under [storeUnencoded]), then, each
    prefixed with [;] and each only when its option is truthy, in this
    order: path, expires (printed by [toUTCString]), domain, secure,
    HttpOnly, sameSite. With the default options {path: "/"},
    [put("x", "hello world")] assigns "x=hello%20world;path=/". Well-formed
    strings can always be encoded. *)
Theorem cookie_string_layout name value o st :
  isBlank (Some value) = false ->
  let opts := mergeOptions (options st) o in
  (_buildCookieString name (Some value) o st).1
  = cbind (if truthy_bool (storeUnencoded opts) then Normal value
           else encodeURIComponent value) (fun cookieValue =>
    cbind (encodeURIComponent name) (fun encodedName =>
    Normal (encodedName ++ js "=" ++ cookieValue
            ++ (if truthy_string (path opts)
                then js ";path=" ++ default [] (path opts) else [])
            ++ (match expiry_date (expires opts) with
                | Some d => js ";expires=" ++ toUTCString d
                | None => []
                end)
            ++ (if truthy_string (domain opts)
                then js ";domain=" ++ default [] (domain opts) else [])
            ++ (if truthy_bool (secure opts) then js ";secure" else [])
            ++ (if truthy_bool (httpOnly opts) then js ";HttpOnly" else [])
            ++ (if truthy_string (sameSite opts)
                then js ";sameSite=" ++ default [] (sameSite opts) else []))))
  ∧ (isWellFormed name = true -> isWellFormed value = true ->
     exists str, (_buildCookieString name (Some value) o st).1 = Normal str)
  ∧ (forall j,
       assigned (put (js "x") (js "hello world") None (constructor root_path j)).2
       = [js "x=hello%20world;path=/"]).
Proof.
  intros Hb opts. split; [|split].
  - rewrite _buildCookieString_spec. fold opts.
    assert (serialize opts name (Some value)
            = cbind (if truthy_bool (storeUnencoded opts) then Normal value
                     else encodeURIComponent value) (fun cookieValue =>
              cbind (encodeURIComponent name) (fun encodedName =>
              Normal (assemble encodedName cookieValue
                        (attribute_segments opts (expiry_date (expires opts)))))))
      as Hser.
    { unfold serialize. by rewrite Hb. }
    rewrite Hser.
    destruct (if truthy_bool (storeUnencoded opts) then Normal value
              else encodeURIComponent value) as [cookieValue|e]; [|done].
    cbn [cbind]. destruct (encodeURIComponent name) as [encodedName|e]; [|done].
    cbn [cbind fst]. f_equal. rewrite <- assemble_eq.
    by rewrite <- !app_assoc.
  - intros Hwn Hwv. rewrite _buildCookieString_spec. fold opts.
    destruct (encode_wellformed name Hwn) as [en Hen].
    destruct (encode_wellformed value Hwv) as [cv Hcv].
    unfold serialize. rewrite Hb, Hen. cbn [default from_option id].
    destruct (truthy_bool (storeUnencoded opts)); [|rewrite Hcv]; cbn [cbind]; eauto.
  - intros j. reflexivity.
Qed.


(** C7. When the serialized cookie is longer than 4095 code units the
    writer still returns it whole, logs one diagnostic, and [_writeCookie]
    still assigns it to the jar; a shorter cookie is returned without any
    diagnostic. *)
Theorem oversized_cookie name value o st str :
  serialize (mergeOptions (options st) o) name value = Normal str ->
  ((4096 < length str + 1)%nat ->
     exists st',
       _buildCookieString name value o st = (Normal str, st')
       ∧ console st' = console st ++ [too_large_message name (length str + 1)]
       ∧ document_cookie st' = document_cookie st
       ∧ assigned (_writeCookie name value o st).2 = assigned st ++ [str]
       ∧ (_writeCookie name value o st).1 = Normal tt)
  ∧ ((length str + 1 <= 4096)%nat ->
     _buildCookieString name value o st = (Normal str, st)).
Proof.
  intros Hser. rewrite _writeCookie_spec, _buildCookieString_spec, Hser.
  unfold after_diagnostic. split; intros Hlen.
  - apply Nat.ltb_lt in Hlen. rewrite Hlen. eexists. split; [reflexivity|]. done.
  - apply Nat.ltb_ge in Hlen. by rewrite Hlen.
Qed.


(** C9. The options the writer uses are [mergeOptions] of the defaults and
    the options of the call: each key the call sets has the value of the
    call, every other key has the default; with no options at all the
    defaults are used. *)
Theorem merged_options name value st :
  (forall o, (_buildCookieString name value o st).1
             = serialize (mergeOptions (options st) o) name value)
  ∧ (forall defaults, mergeOptions defaults None = defaults)
  ∧ (forall defaults o,
       let merged := mergeOptions defaults (Some o) in
       path merged = match path o with Some x => Some x | None => path defaults end
       ∧ domain merged
         = match domain o with Some x => Some x | None => domain defaults end
       ∧ expires merged
         = match expires o with Some x => Some x | None => expires defaults end
       ∧ secure merged
         = match secure o with Some x => Some x | None => secure defaults end
       ∧ httpOnly merged
         = match httpOnly o with Some x => Some x | None => httpOnly defaults end
       ∧ sameSite merged
         = match sameSite o with Some x => Some x | None => sameSite defaults end
       ∧ storeUnencoded merged
         = match storeUnencoded o with
           | Some x => Some x
           | None => storeUnencoded defaults
           end).
Proof.
  split; [|split].
  - intros o. rewrite _buildCookieString_spec. by destruct (serialize _ _ _).
  - reflexivity.
  - intros defaults o. cbn. by repeat split.
Qed.

(** C10. A segment without [=], or with its first [=] at position 0, adds
    nothing to the parsed map; the empty jar string parses to the empty
    map. *)
Theorem nameless_segments_ignored :
  (forall s before cookie after,
      split (js "; ") s = before ++ cookie :: after ->
      (equals_sign ∉ cookie) ∨ head cookie = Some equals_sign ->
      parse_cookies s = foldl read_segment ∅ (before ++ after))
  ∧ (forall cookies cookie,
      (equals_sign ∉ cookie) ∨ head cookie = Some equals_sign ->
      read_segment cookies cookie = cookies)
  ∧ parse_cookies [] = ∅.
Proof.
  assert (forall cookies cookie,
            (equals_sign ∉ cookie) ∨ head cookie = Some equals_sign ->
            read_segment cookies cookie = cookies) as Hskip.
  { intros cookies cookie Hc. unfold read_segment.
    assert (indexOf equals_sign cookie <= 0) as Hle.
    { destruct Hc as [Hn|Hh]; [rewrite indexOf_notin by done; lia|].
      apply indexOf_head in Hh. lia. }
    apply Z.leb_le in Hle. by rewrite Hle. }
  split; [|split; [exact Hskip|reflexivity]].
  intros s before cookie after Hsplit Hc.
  unfold parse_cookies. rewrite Hsplit, !foldl_app. cbn [foldl].
  by rewrite Hskip.
Qed.

End Claims.

(** * The service at work on the small platform *)

(** The platform's [encodeURIComponent] and [decodeURIComponent]. *)
Example split_example :
  split (js "; ") (js "a=1; b=2; a=3") = [js "a=1"; js "b=2"; js "a=3"].
Proof. reflexivity. Qed.

Example encode_example :
  encodeURIComponent (js "hello world;=") = Normal (js "hello%20world%3B%3D").
Proof. reflexivity. Qed.

(** U+00E9, U+20AC and U+1F600, the last a surrogate pair. *)
Example encode_unicode :
  encodeURIComponent [233; 8364; 55357; 56832]
  = Normal (js "%C3%A9%E2%82%AC%F0%9F%98%80").
Proof. reflexivity. Qed.

Example decode_unicode :
  decodeURIComponent (js "%C3%A9%E2%82%AC%F0%9F%98%80")
  = Normal [233; 8364; 55357; 56832].
Proof. reflexivity. Qed.

Example decode_malformed : decodeURIComponent (js "%E0%A4%A") = Throw URIError.
Proof. reflexivity. Qed.

Example decode_tolerant : safeDecodeURIComponent (js "%E0%A4%A") = js "%E0%A4%A".
Proof. reflexivity. Qed.

Example encode_lone_surrogate : encodeURIComponent [55296] = Throw URIError.
Proof. reflexivity. Qed.

(** A value with U+00E9, [;], [=], a space and U+1F600, written under the
    name "x" into a jar that holds "b=2", is read back as it was. *)
Lemma put_then_get_witness :
  exists st1 st2,
    put (js "x") [104; 233; 59; 61; 32; 55357; 56832] None
        (constructor (H0 := memory_host) root_path [(js "b", js "2")]) = (Normal tt, st1)
    ∧ get (js "x") st1
      = (Normal (OwnString [104; 233; 59; 61; 32; 55357; 56832]), st2).
Proof.
  apply (put_then_get (js "x") [104; 233; 59; 61; 32; 55357; 56832]).
  - done.
  - reflexivity.
  - apply (bool_decide_unpack _). vm_compute. exact I.
  - reflexivity.
  - reflexivity.
  - reflexivity.
  - reflexivity.
  - apply (bool_decide_unpack _). vm_compute. exact I.
Defined.

(** Where the claim as stated fails, each time in a jar that stores what it
    is assigned. The nameless cookie: the write succeeds and the jar holds
    the pair, yet the reader skips it. A name [Object.prototype] has: the
    jar holds the pair, [get] yields the inherited member. The empty value:
    the writer takes it for a removal. A value stored as it is: the reader
    decodes it all the same. A cookie that reads as the name and is listed
    before the one written: the reader returns the first. An unpaired
    surrogate: [put] throws the URIError of [encodeURIComponent]. *)
Lemma put_then_get_fails :
  (let st1 := (put [] (js "v") None (constructor root_path [])).2 in
   (put [] (js "v") None (constructor root_path [])).1 = Normal tt
   ∧ document_cookie st1 = [([], js "v")]
   ∧ (get [] st1).1 = Normal Undefined)
  ∧ (let st1 := (put (js "constructor") (js "v") None (constructor root_path [])).2 in
     document_cookie st1 = [(js "constructor", js "v")]
     ∧ (get (js "constructor") st1).1 = Normal (Inherited (js "constructor")))
  ∧ (let st1 := (put (js "x") [] None
                   (constructor root_path [(js "x", js "old")])).2 in
     document_cookie st1 = []
     ∧ (get (js "x") st1).1 = Normal Undefined)
  ∧ (let st1 := (put (js "x") (js "100%25") (Some unencoded)
                   (constructor root_path [])).2 in
     document_cookie st1 = [(js "x", js "100%25")]
     ∧ (get (js "x") st1).1 = Normal (OwnString (js "100%")))
  ∧ (let st1 := (put (js "x") (js "new") None
                   (constructor root_path [(js "%78", js "old")])).2 in
     document_cookie st1 = [(js "%78", js "old"); (js "x", js "new")]
     ∧ (get (js "x") st1).1 = Normal (OwnString (js "old")))
  ∧ (put (js "x") [55296] None (constructor root_path [])).1 = Throw URIError.
Proof. vm_compute. repeat split; reflexivity. Qed.

(** A state whose jar string is "toString=1; toString=2". *)
Lemma inherited_name_loses_first_occurrence_witness :
  parse_cookies (js "a=1; b=2; a=3") = [(js "a", js "1"); (js "b", js "2")]
  ∧ segment_entry (js "toString=1") = Some (js "toString", js "1")
  ∧ segment_entry (js "toString=2") = Some (js "toString", js "2")
  ∧ (exists l st',
        getAll (constructor (H0 := memory_host) root_path
                  [(js "toString", js "1"); (js "toString", js "2")])
        = (Normal l, st')
        ∧ deref (heap st') l = ∅
        ∧ Object_keys (deref (heap st') l) = [])
  ∧ (exists st',
        get (js "toString")
          (constructor (H0 := memory_host) root_path [(js "toString", js "1"); (js "toString", js "2")])
        = (Normal (Inherited (js "toString")), st')).
Proof.
  apply (inherited_name_loses_first_occurrence
           (constructor (H0 := memory_host) root_path
              [(js "toString", js "1"); (js "toString", js "2")])).
  - reflexivity.
  - reflexivity.
Defined.

Lemma cache_hit_witness :
  exists l st1,
    getAll (constructor root_path [(js "a", js "1")]) = (Normal l, st1)
    ∧ getAll st1 = (Normal l, st1).
Proof.
  destruct (cache_hit (constructor (H0 := memory_host) root_path [(js "a", js "1")]))
    as (l & st1 & H1 & H2 & _).
  exists l, st1. exact (conj H1 H2).
Defined.

Lemma remove_then_get_witness :
  exists str st1 st2,
    remove (js "x") None (constructor root_path [(js "x", js "1"); (js "b", js "2")])
    = (Normal tt, st1)
    ∧ (_buildCookieString (js "x") None None
         (constructor root_path [(js "x", js "1"); (js "b", js "2")])).1
      = Normal str
    ∧ is_expired str = true
    ∧ assigned st1 = [] ++ [str]
    ∧ document_cookie st1
      = jar_set str ([(js "x", js "1"); (js "b", js "2")] : MemoryJar)
    ∧ get (js "x") st1 = (Normal Undefined, st2).
Proof.
  apply (proj2 (proj2 (remove_then_get (js "x") None
                         (constructor (H0 := memory_host) root_path
                            [(js "x", js "1"); (js "b", js "2")])))).
  - reflexivity.
  - apply (bool_decide_unpack _). vm_compute. exact I.
  - reflexivity.
  - apply (bool_decide_unpack _). vm_compute. exact I.
  - apply (bool_decide_unpack _). vm_compute. exact I.
Defined.

(** Where the claim as stated fails. The jar holds a cookie stored as
    "a+b", which reads as "a+b": [remove] addresses "a%2Bb", the jar
    deletes the entry of that name, which it does not have, and [get]
    still returns "1". A name with an unpaired surrogate: no cookie string
    is built, [remove] throws. A name [Object.prototype] has: the entry is
    deleted and [get] yields the inherited member. *)
Lemma remove_then_get_fails :
  (let st1 := (remove (js "a+b") None
                 (constructor root_path [(js "a+b", js "1")])).2 in
   (remove (js "a+b") None (constructor root_path [(js "a+b", js "1")])).1
   = Normal tt
   ∧ assigned st1 = [js "a%2Bb=;path=/;expires=Thu, 01 Jan 1970 00:00:00 GMT"]
   ∧ document_cookie st1 = [(js "a+b", js "1")]
   ∧ (get (js "a+b") st1).1 = Normal (OwnString (js "1")))
  ∧ (_buildCookieString [55296] None None
       (constructor root_path [([55296], js "1")])).1 = Throw URIError
  ∧ (remove [55296] None (constructor root_path [([55296], js "1")])).1
    = Throw URIError
  ∧ (let st1 := (remove (js "toString") None
                   (constructor root_path [(js "toString", js "1")])).2 in
     document_cookie st1 = []
     ∧ (get (js "toString") st1).1 = Normal (Inherited (js "toString"))).
Proof. vm_compute. repeat split; reflexivity. Qed.

Lemma cookie_string_layout_witness :
  (_buildCookieString (js "x") (Some (js "hello world")) None
     (constructor (H0 := memory_host) root_path [])).1
  = Normal (js "x=hello%20world;path=/").
Proof.
  exact (proj1 (cookie_string_layout (js "x") (js "hello world") None
                  (constructor (H0 := memory_host) root_path []) eq_refl)).
Defined.

(** A value of 5000 code units: the cookie is still built and assigned. *)
Lemma oversized_cookie_witness :
  exists st',
    _buildCookieString (js "x") (Some (replicate 5000 97)) None
      (constructor root_path [])
    = (Normal (js "x=" ++ replicate 5000 97 ++ js ";path=/"), st')
    ∧ console st'
      = [js "Cookie 'x' possibly not set or overflowed because it was too large (5010 > 4096 bytes)!"].
Proof.
  destruct (proj1 (oversized_cookie (js "x") (Some (replicate 5000 97)) None
                     (constructor (H0 := memory_host) root_path [])
                     (js "x=" ++ replicate 5000 97 ++ js ";path=/")
                     ltac:(vm_compute; reflexivity))
              ltac:(vm_compute; lia))
    as (st' & Hb & Hc & _).
  exists st'. split; [exact Hb|]. rewrite Hc. vm_compute. reflexivity.
Defined.

(** The jar holds "b c", "7" and "a": the removals are assigned in the
    order of [Object.keys], the array index first. *)
Example removeAll_order :
  assigned (removeAll None
              (constructor root_path
                 [(js "b%20c", js "2"); (js "7", js "x"); (js "a", js "1")])).2
  = [js "7=;path=/;expires=Thu, 01 Jan 1970 00:00:00 GMT";
     js "b%20c=;path=/;expires=Thu, 01 Jan 1970 00:00:00 GMT";
     js "a=;path=/;expires=Thu, 01 Jan 1970 00:00:00 GMT"].
Proof. vm_compute. reflexivity. Qed.



Lemma nameless_segments_ignored_witness :
  parse_cookies (js "a=1; =x; flag") = foldl read_segment ∅ [js "a=1"; js "flag"].
Proof.
  apply (proj1 nameless_segments_ignored (js "a=1; =x; flag")
           [js "a=1"] (js "=x") [js "flag"]).
  - reflexivity.
  - by right.
Defined.

(** [getObject] on the small platform: a value it can parse, a value it
    cannot, the empty value, no value, and a member of [Object.prototype]. *)
Example getObject_examples :
  (getObject (js "t") (constructor root_path [(js "t", js "true")])).1
  = Normal (AnyParsed true)
  ∧ (getObject (js "t") (constructor root_path [(js "t", js "%7Bbad")])).1
    = Normal (AnyString (js "{bad"))
  ∧ (getObject (js "t") (constructor root_path [(js "t", [])])).1
    = Normal (AnyString [])
  ∧ (getObject (js "t") (constructor root_path [])).1 = Normal AnyUndefined
  ∧ (getObject (js "valueOf") (constructor root_path [(js "valueOf", js "true")])).1
    = Normal (AnyInherited (js "valueOf")).
Proof. vm_compute. repeat split; reflexivity. Qed.

(** * Further properties of the service *)

(** ** Reads, the heap and the cache along a history *)

Section MoreReader.
Context `{Platform} `{Host}.

(** X1. Reading never writes: [get], [getObject] and [getAll] complete
    normally in every state and leave the jar, the strings assigned to it,
    the console and the options as they were. *)
Theorem reads_do_not_write key st :
  (exists v st', get key st = (Normal v, st') ∧ same_world st st')
  ∧ (exists v st', getObject key st = (Normal v, st') ∧ same_world st st')
  ∧ (exists l st', getAll st = (Normal l, st') ∧ same_world st st').
Proof.
  split; [|split].
  - destruct (get_frame key st) as (v & st' & Hg & Hw & _). by exists v, st'.
  - destruct (getObject_frame key st) as (v & st' & Hg & Hw & _). by exists v, st'.
  - destruct (_readCookies_frame st) as (l & st' & Hr & Hw & _). by exists l, st'.
Qed.

(** X2. The object [getAll] returns is a snapshot: whatever is called
    afterwards, and whatever other code does to the jar, that object keeps
    the contents it had, the parse of the jar string at the time of the
    call. A later read of a changed jar fills a new object. *)
Theorem snapshots_are_stable provided j before :
  let st := run before (constructor provided j) in
  exists l st1,
    getAll st = (Normal l, st1)
    ∧ deref (heap st1) l = parse_cookies (get_cookieString st)
    ∧ forall after, deref (heap (run after st1)) l = deref (heap st1) l.
Proof.
  intros st.
  destruct (run_valid before _ (constructor_valid provided j)) as [Hv _].
  fold st in Hv.
  destruct (_readCookies_spec st (proj1 Hv)) as (l & st1 & Hr & Hl & Hd & _).
  exists l, st1. split; [exact Hr|]. split; [exact Hd|].
  intros after.
  pose proof (_readCookies_valid st Hv) as Hv1. rewrite Hr in Hv1. cbn in Hv1.
  destruct (run_valid after st1 Hv1) as [_ Hp].
  destruct Hv1 as [_ Hlt]. rewrite Hl in Hlt.
  destruct (lookup_lt_is_Some_2 (heap st1) l Hlt) as [m Hm].
  unfold deref. by rewrite (prefix_lookup_Some _ _ _ _ Hm Hp), Hm.
Qed.

(** X3. The cache is never stale: after any history of calls, with any
    changes made to the jar by other code in between, [get] returns what a
    fresh parse of the current jar string holds for the key, and [getAll]
    returns a map equal to that parse. *)
Theorem cache_never_stale provided j calls key :
  let st := run calls (constructor provided j) in
  (exists st', get key st
               = (Normal (obj_get (parse_cookies (get_cookieString st)) key), st'))
  ∧ (exists l st', getAll st = (Normal l, st')
                   ∧ deref (heap st') l = parse_cookies (get_cookieString st)).
Proof.
  intros st.
  destruct (run_valid calls _ (constructor_valid provided j)) as [[Hc _] _].
  fold st in Hc. split.
  - destruct (get_spec key st Hc) as (st' & Hg & _). by exists st'.
  - destruct (_readCookies_spec st Hc) as (l & st' & Hr & _ & Hd & _).
    by exists l, st'.
Qed.

(** X6. [get] yields [undefined] exactly when [Object.prototype] does not
    have the key and no cookie of the jar string reads as the key: no
    segment with a name before its first [=] that decodes to the key. *)
Theorem get_undefined_iff key st :
  cache_ok st ->
  (get key st).1 = Normal Undefined
  <-> (key ∉ Object_prototype)
      ∧ Forall (fun cookie => ¬ reads_as key cookie) (listed st).
Proof.
  intros Hc. destruct (get_spec key st Hc) as (st' & -> & _). cbn [fst].
  rewrite parse_cookies_get. fold (listed st).
  rewrite <- first_value_None. case_bool_decide as Hin.
  - split; [done|]. by intros [? _].
  - destruct (first_value key (listed st)); split; try done. by intros [_ ?].
Qed.

(** X12. First occurrence wins, for the names [Object.prototype] does not
    have: such a name reads as the value of the first segment that carries
    it; a later segment with a name already seen changes nothing; the names
    [Object.keys] lists are pairwise distinct; and [getAll] returns the
    parse of the current jar string. *)
Theorem first_occurrence_wins :
  (forall s before cookie after n v,
      split (js "; ") s = before ++ cookie :: after ->
      segment_entry cookie = Some (n, v) ->
      (forall c v', c ∈ before -> segment_entry c <> Some (n, v')) ->
      n ∉ Object_prototype ->
      obj_get (parse_cookies s) n = OwnString v)
  ∧ (forall s before later after n v v',
      split (js "; ") s = before ++ later :: after ->
      segment_entry later = Some (n, v') ->
      first_value n before = Some v ->
      parse_cookies s = foldl read_segment ∅ (before ++ after))
  ∧ (forall s, NoDup (Object_keys (parse_cookies s)))
  ∧ (forall st, cache_ok st ->
      exists l st', getAll st = (Normal l, st')
        ∧ deref (heap st') l = parse_cookies (get_cookieString st)).
Proof.
  split; [|split; [|split]].
  - intros s before cookie after n v Hsplit Hentry Hfirst Hproto.
    rewrite parse_cookies_get, bool_decide_eq_false_2, Hsplit by done.
    clear Hsplit.
    induction before as [|c before IH]; cbn [app first_value].
    + rewrite Hentry. by rewrite decide_True.
    + destruct (segment_entry c) as [[n' v']|] eqn:Hc.
      * rewrite decide_False.
        { apply IH. intros c' v'' Hin. apply Hfirst. by right. }
        intros ->. apply (Hfirst c v'); [by left|done].
      * apply IH. intros c' v'' Hin. apply Hfirst. by right.
  - intros s before later after n v v' Hsplit Hentry Hfirst.
    unfold parse_cookies. rewrite Hsplit, !foldl_app. cbn [foldl]. f_equal.
    rewrite read_segment_entry, Hentry.
    assert (isPresent (obj_get (foldl read_segment ∅ before) n) = true) as ->; [|done].
    destruct (isPresent _) eqn:Hp; [done|].
    apply isPresent_false in Hp as [Hown Hproto].
    rewrite foldl_read_own in Hown.
    change (own_property ∅ n) with (@None jsstring) in Hown. cbv beta iota in Hown.
    rewrite bool_decide_eq_false_2 in Hown by done. congruence.
  - intros s. apply Object_keys_NoDup, parse_cookies_NoDup.
  - intros st Hc. destruct (_readCookies_spec st Hc) as (l & st' & Hr & _ & Hd & _).
    by exists l, st'.
Qed.

(** X13. A cookie whose name [Object.prototype] has is never read: the
    parse of a jar string has no own property of that name and
    [Object.keys] does not list it, so [removeAll] issues no removal for
    it; and after any history of calls, with any changes made to the jar
    in between, [get] yields the inherited member. *)
Theorem inherited_names_are_never_read name :
  name ∈ Object_prototype ->
  (forall s, own_property (parse_cookies s) name = None
             ∧ (name ∉ Object_keys (parse_cookies s)))
  ∧ (forall provided j calls,
       exists st', get name (run calls (constructor provided j))
                   = (Normal (Inherited name), st')).
Proof.
  intros Hproto. split.
  - intros s.
    assert (own_property (parse_cookies s) name = None) as Hown.
    { by rewrite parse_cookies_own, bool_decide_eq_true_2. }
    split; [done|]. rewrite Object_keys_elem. by apply own_property_None.
  - intros provided j calls.
    destruct (run_valid calls _ (constructor_valid provided j)) as [[Hc _] _].
    destruct (get_spec name _ Hc) as (st' & Hg & _). exists st'.
    by rewrite Hg, parse_cookies_get, bool_decide_eq_true_2.
Qed.

End MoreReader.

(** ** Writing: one assignment or a URIError *)

Lemma encodeURIComponent_throws_URIError s e :
  encodeURIComponent s = Throw e -> e = URIError.
Proof.
  remember (length s) as n eqn:Hn. revert s Hn.
  induction n as [n IH] using lt_wf_ind. intros s Hn.
  destruct s as [|c t]; [done|]. cbn [encodeURIComponent]. simpl in Hn.
  destruct (unreserved c).
  { destruct (encodeURIComponent t) eqn:Ht; [done|]. cbn.
    intros [= <-]. apply (IH (length t)) with t; [lia|done|done]. }
  destruct (is_lead c).
  { destruct t as [|d t']; [by intros [= <-]|].
    destruct (is_trail d); [|by intros [= <-]].
    destruct (encodeURIComponent t') eqn:Ht; [done|]. cbn.
    intros [= <-]. apply (IH (length t')) with t'; [simpl in Hn; lia|done|done]. }
  destruct (is_trail c); [by intros [= <-]|].
  destruct (encodeURIComponent t) eqn:Ht; [done|]. cbn.
  intros [= <-]. apply (IH (length t)) with t; [lia|done|done].
Qed.

Section MoreWriter.
Context `{Platform} `{Host}.

(** X4. A write either completes, having assigned exactly one string to
    the jar, the one [_buildCookieString] returns, or throws a URIError and
    leaves the state untouched: nothing is assigned and nothing is logged.
    It throws exactly when [encodeURIComponent] throws on the name, or on
    the value while the value is to be encoded. [put] and [remove] are the
    two ways to call it. *)
Theorem write_once_or_throw name value o st :
  let opts := mergeOptions (options st) o in
  let v := if isBlank value then [] else default [] value in
  ((exists str st',
       _writeCookie name value o st = (Normal tt, st')
       ∧ (_buildCookieString name value o st).1 = Normal str
       ∧ assigned st' = assigned st ++ [str]
       ∧ document_cookie st' = jar_set str (document_cookie st))
   ∨ _writeCookie name value o st = (Throw URIError, st))
  ∧ (_writeCookie name value o st = (Throw URIError, st)
     <-> (exists e, encodeURIComponent name = Throw e)
         ∨ (truthy_bool (storeUnencoded opts) = false
            ∧ exists e, encodeURIComponent v = Throw e)).
Proof.
  intros opts v.
  destruct (serialize opts name value) as [str|e] eqn:Hser.
  - destruct (write_completes name value o st str Hser) as (st' & Hw & Hrest).
    split; [left; by exists str, st'|].
    rewrite Hw. split; [discriminate|]. intros Hor. exfalso.
    unfold serialize in Hser. fold v in Hser.
    destruct Hor as [[e He]|[Hf [e He]]].
    + rewrite He in Hser. by destruct (if truthy_bool _ then _ else _).
    + by rewrite Hf, He in Hser.
  - pose proof (write_throws name value o st e Hser) as Hw.
    assert (e = URIError ∧
            ((exists e, encodeURIComponent name = Throw e)
             ∨ (truthy_bool (storeUnencoded opts) = false
                ∧ exists e, encodeURIComponent v = Throw e))) as [-> Hor].
    { unfold serialize in Hser. fold v in Hser.
      destruct (truthy_bool (storeUnencoded opts)) eqn:Hraw; cbn [cbind] in Hser.
      - destruct (encodeURIComponent name) as [en|e'] eqn:Hn; [done|].
        injection Hser as <-.
        split; [by eapply encodeURIComponent_throws_URIError|left; by eexists].
      - destruct (encodeURIComponent v) as [cv|e''] eqn:Hv; cbn [cbind] in Hser.
        + destruct (encodeURIComponent name) as [en|e'] eqn:Hn; [done|].
          injection Hser as <-.
          split; [by eapply encodeURIComponent_throws_URIError|left; by eexists].
        + injection Hser as <-.
          split; [by eapply encodeURIComponent_throws_URIError|].
          right. split; [done|by eexists]. }
    split; [by right|]. by split.
Qed.

Lemma split_head_prefixed c v rest :
  rest = [] ∨ (exists r, rest = c :: r) ->
  hd [] (split [c] (v ++ rest)) = hd [] (split [c] v).
Proof.
  intros Hrest. induction v as [|x t IH]; cbn [app].
  - destruct Hrest as [->|[r ->]]; [done|].
    change (c :: r) with ([c] ++ r). by rewrite split_sep.
  - destruct (decide (x = c)) as [->|Hx].
    + change (c :: t ++ rest) with ([c] ++ (t ++ rest)).
      change (c :: t) with ([c] ++ t). by rewrite !split_sep.
    + rewrite !split_other by done.
      rewrite !hd_push_front by apply split_nonempty. by rewrite IH.
Qed.

(** What [put] stores and what [get] then reads, for a value written as
    [cookieValue]: the pair ends at the first [;]. *)
Lemma put_stored name value cookieValue o st :
  name <> [] ->
  isWellFormed name = true ->
  name ∉ Object_prototype ->
  isBlank (Some value) = false ->
  (if truthy_bool (storeUnencoded (mergeOptions (options st) o))
   then Normal value else encodeURIComponent value) = Normal cookieValue ->
  cache_ok st ->
  kept_as_assigned name (put name value o st).2 ->
  exists str st1 st2,
    put name value o st = (Normal tt, st1)
    ∧ assigned st1 = assigned st ++ [str]
    ∧ cookie_pair str
      = raw_name name ++ js "=" ++ hd [] (split [semicolon] cookieValue)
    ∧ get name st1
      = (Normal (OwnString (safeDecodeURIComponent
                              (hd [] (split [semicolon] cookieValue)))), st2).
Proof.
  intros Hne Hwn Hproto Hb Hcv Hc Hkept.
  destruct (encode_wellformed name Hwn) as [encodedName Hen].
  destruct (encode_chars name encodedName Hwn Hen) as [Hsemi Heq].
  assert (serialize (mergeOptions (options st) o) name (Some value)
          = Normal (assemble encodedName cookieValue
                      (attribute_segments (mergeOptions (options st) o)
                         (expiry_date (expires (mergeOptions (options st) o))))))
    as Hser.
  { unfold serialize. rewrite Hb. cbn [default from_option id].
    by rewrite Hcv, Hen. }
  destruct (write_completes name (Some value) o st _ Hser) as (st1 & Hw & _ & Ha & _).
  unfold put in *. rewrite Hw in Hkept. cbn [snd] in Hkept.
  unfold kept_as_assigned in Hkept. rewrite Ha, last_snoc in Hkept.
  assert (cookie_pair (assemble encodedName cookieValue
                         (attribute_segments (mergeOptions (options st) o)
                            (expiry_date (expires (mergeOptions (options st) o)))))
          = encodedName ++ [equals_sign] ++ hd [] (split [semicolon] cookieValue))
    as Hpair.
  { unfold cookie_pair, assemble. change (js "=") with [equals_sign].
    rewrite split_head_app by done.
    change ([equals_sign] ++ ?r) with (equals_sign :: r).
    rewrite split_other by done.
    rewrite hd_push_front by apply split_nonempty.
    by rewrite split_head_prefixed by apply prefixed_segments. }
  rewrite Hpair in Hkept.
  pose proof (_writeCookie_cache_ok name (Some value) o st Hc) as Hc1.
  rewrite Hw in Hc1.
  destruct (get_first_named name _ st1 Hc1 Hproto Hkept) as (v & st2 & Hv & Hg).
  rewrite segment_entry_pair in Hv by (by try eapply encode_nonempty).
  injection Hv as _ <-.
  eexists _, st1, st2. split; [done|]. split; [exact Ha|].
  split; [|done]. rewrite Hpair. unfold raw_name. by rewrite Hen.
Qed.

(** X7. Under [storeUnencoded] the value is assigned as it is, so the pair
    the host is given ends at the first [;] of the value, and the reader
    decodes what is stored: for a non-empty well-formed name that
    [Object.prototype] does not have and a value that is not blank, when
    the host has stored the assigned string, [get] returns the tolerant
    decoding of the part of the value before its first [;]. *)
Theorem put_unencoded_then_get name value o st :
  name <> [] ->
  isWellFormed name = true ->
  name ∉ Object_prototype ->
  isBlank (Some value) = false ->
  truthy_bool (storeUnencoded (mergeOptions (options st) o)) = true ->
  cache_ok st ->
  kept_as_assigned name (put name value o st).2 ->
  exists str st1 st2,
    put name value o st = (Normal tt, st1)
    ∧ assigned st1 = assigned st ++ [str]
    ∧ cookie_pair str = raw_name name ++ js "=" ++ hd [] (split [semicolon] value)
    ∧ get name st1
      = (Normal (OwnString (safeDecodeURIComponent
                              (hd [] (split [semicolon] value)))), st2).
Proof.
  intros Hne Hwn Hproto Hb Hraw Hc Hkept.
  apply (put_stored name value value o st); try done. by rewrite Hraw.
Qed.

End MoreWriter.

(** ** A write and the other cookies, in the jar in memory *)

Section MoreJar.
Context `{Platform}.

(** X5. A write to one name leaves every other cookie as it reads:
    whatever the value and the options, and whether the host stores the
    cookie, removes it or the write throws, [get] of a different name
    returns after [put] or [remove] what it returned before. *)
Theorem write_leaves_other_cookies name o st other :
  isWellFormed name = true ->
  state_ok st ->
  other <> name ->
  (forall value, (get other (put name value o st).2).1 = (get other st).1)
  ∧ (get other (remove name o st).2).1 = (get other st).1.
Proof.
  intros Hwf Hok Hne.
  assert (forall value,
            (get other (_writeCookie name value o st).2).1 = (get other st).1)
    as Hwrite; [|split; [intros value|]; apply Hwrite].
  intros value.
  destruct (encode_wellformed name Hwf) as [en Hen].
  destruct (encode_chars name en Hwf Hen) as [Hsemi Heq].
  pose proof (_writeCookie_ok name value o st Hok) as Hok'.
  destruct Hok as [Hc Hj]. destruct Hok' as [Hc' Hj'].
  destruct (get_spec other _ Hc) as (st1 & -> & _).
  destruct (get_spec other _ Hc') as (st2 & -> & _).
  cbn [fst]. f_equal. rewrite !parse_cookies_get.
  case_bool_decide as Hproto; [done|].
  change (get_cookieString ?s) with (memory_get (document_cookie s)).
  rewrite !memory_first_value by done.
  assert (en = [] ∨ safeDecodeURIComponent en <> other) as Hother.
  { right. rewrite (safeDecode_encode name en) by done. congruence. }
  destruct (write_jar name value o st en Hen Hsemi Heq) as [->|[->|[v ->]]].
  - done.
  - by rewrite first_value_other_delete.
  - by rewrite first_value_other_upsert.
Qed.

End MoreJar.

(** ** putObject and getObject *)

Section MoreObject.
Context `{JSONStringify} `{Host}.

(** X11. [putObject] then [getObject] gives the value back: for a
    non-empty well-formed key that [Object.prototype] does not have, when
    [JSON.stringify] has a well-formed, non-empty text for the value that
    [JSON.parse] reads as the same value, the merged options do not ask for
    raw storage, and the host has stored the assigned string, [get]
    returns that text and [getObject] the value. *)
Theorem putObject_then_getObject key value text o st :
  key <> [] ->
  isWellFormed key = true ->
  key ∉ Object_prototype ->
  JSON_stringify value = Some text ->
  isWellFormed text = true ->
  isBlank (Some text) = false ->
  JSON_parse text = Normal value ->
  truthy_bool (storeUnencoded (mergeOptions (options st) o)) = false ->
  cache_ok st ->
  kept_as_assigned key (putObject key value o st).2 ->
  exists st1 st2,
    putObject key value o st = (Normal tt, st1)
    ∧ get key st1 = (Normal (OwnString text), st2)
    ∧ getObject key st1 = (Normal (AnyParsed value), st2).
Proof.
  intros Hne Hwk Hproto Hstr Hwt Hb Hparse Hraw Hc Hkept.
  destruct (encode_wellformed text Hwt) as [cv Hcv].
  destruct (encode_chars text cv Hwt Hcv) as [Hsemi _].
  unfold putObject in *. rewrite Hstr in *.
  destruct (put_stored key text cv o st)
    as (str & st1 & st2 & Hp & _ & _ & Hg); try done; [by rewrite Hraw|].
  rewrite split_notin in Hg by done. cbn [hd] in Hg.
  rewrite (safeDecode_encode text cv) in Hg by done.
  exists st1, st2. split; [done|]. split; [done|].
  unfold getObject, bind. rewrite Hg.
  destruct text as [|c s]; [done|].
  cbn [truthy]. unfold lift, safeJsonParse. cbn [ToString]. by rewrite Hparse.
Qed.

End MoreObject.

(** ** The further properties on the small platform *)

(** Writing and removing "a" leaves the value read for "b" as it was. *)
Lemma write_leaves_other_cookies_witness :
  (forall value,
      (get (js "b")
         (put (js "a") value None
            (constructor root_path [(js "a", js "1"); (js "b", js "2")])).2).1
      = (get (js "b")
           (constructor root_path [(js "a", js "1"); (js "b", js "2")])).1)
  ∧ (get (js "b")
       (remove (js "a") None
          (constructor root_path [(js "a", js "1"); (js "b", js "2")])).2).1
    = (get (js "b")
         (constructor root_path [(js "a", js "1"); (js "b", js "2")])).1.
Proof.
  apply (write_leaves_other_cookies (js "a") None
           (constructor (H0 := memory_host) root_path [(js "a", js "1"); (js "b", js "2")]) (js "b")).
  - reflexivity.
  - apply (bool_decide_unpack _). vm_compute. exact I.
  - discriminate.
Defined.

(** A jar with "a", a nameless cookie and a segment without [=] has
    nothing to read for "c". *)
Lemma get_undefined_iff_witness :
  (get (js "c") (constructor root_path [(js "a", js "1"); ([], js "c")])).1
  = Normal Undefined
  <-> (js "c" ∉ Object_prototype)
      ∧ Forall (fun cookie => ¬ reads_as (js "c") cookie)
          (listed (constructor root_path [(js "a", js "1"); ([], js "c")])).
Proof.
  apply (get_undefined_iff (js "c")
           (constructor (H0 := memory_host) root_path [(js "a", js "1"); ([], js "c")])).
  reflexivity.
Defined.

(** The value "100%25;secure" stored as it is: the jar is given the pair
    "x=100%25", and [get] returns "100%". *)
Lemma put_unencoded_then_get_witness :
  exists str st1 st2,
    put (js "x") (js "100%25;secure") (Some unencoded) (constructor root_path [])
    = (Normal tt, st1)
    ∧ assigned st1 = [] ++ [str]
    ∧ cookie_pair str
      = raw_name (js "x") ++ js "=" ++ hd [] (split [semicolon] (js "100%25;secure"))
    ∧ get (js "x") st1
      = (Normal (OwnString (safeDecodeURIComponent
                              (hd [] (split [semicolon] (js "100%25;secure"))))),
         st2).
Proof.
  apply (put_unencoded_then_get (js "x") (js "100%25;secure") (Some unencoded)
           (constructor (H0 := memory_host) root_path [])).
  - discriminate.
  - reflexivity.
  - apply (bool_decide_unpack _). vm_compute. exact I.
  - reflexivity.
  - reflexivity.
  - reflexivity.
  - apply (bool_decide_unpack _). vm_compute. exact I.
Defined.

Lemma putObject_then_getObject_witness :
  exists st1 st2,
    putObject (js "t") (true : @JSValue small_platform) None
      (constructor root_path [])
    = (Normal tt, st1)
    ∧ get (js "t") st1 = (Normal (OwnString (js "true")), st2)
    ∧ getObject (js "t") st1 = (Normal (AnyParsed true), st2).
Proof.
  apply (putObject_then_getObject (js "t") (true : @JSValue small_platform)
           (js "true") None (constructor (H0 := memory_host) root_path [])).
  - discriminate.
  - reflexivity.
  - apply (bool_decide_unpack _). vm_compute. exact I.
  - reflexivity.
  - reflexivity.
  - reflexivity.
  - reflexivity.
  - reflexivity.
  - reflexivity.
  - apply (bool_decide_unpack _). vm_compute. exact I.
Defined.

(** The name "hasOwnProperty", in a jar that holds a cookie of that name. *)
Lemma inherited_names_are_never_read_witness :
  (forall s, own_property (parse_cookies s) (js "hasOwnProperty") = None
             ∧ (js "hasOwnProperty" ∉ Object_keys (parse_cookies s)))
  ∧ (forall provided j calls,
       exists st', get (js "hasOwnProperty")
                     (run calls (constructor (H0 := memory_host) provided j))
                   = (Normal (Inherited (js "hasOwnProperty")), st')).
Proof.
  apply (inherited_names_are_never_read (js "hasOwnProperty")).
  apply (bool_decide_unpack _). vm_compute. exact I.
Defined.
